(** * build-system/tasks/compile.js: the rate limiter of [closureCompile]

    [closureCompile] limits the number of closure compiler invocations
    that run at the same time.  The module keeps two pieces of mutable
    state, [queue] (an array of [start] closures) and [inProgress] (a
    number), and a constant [MAX_PARALLEL_CLOSURE_INVOCATIONS].

    The embedding is a state machine over the JavaScript event loop:
    every synchronous turn of the program (a call of [closureCompile],
    or one of the two handlers that [start] attaches to the promise of
    [compile]) is a function on the module state, and the environment
    chooses which turn runs next.  Every write to the shared state and
    every call that leaves the module is appended to a trace, so that
    the order of the effects inside one turn can be stated. *)

From stdpp Require Import base decidable option list strings.
From Stdlib Require Import ZArith Lia Ascii.

(** ** Data *)

(** A job is one call of [closureCompile]; it is named by the number of
    calls made before it.  The closures [start] and [resolve] of that
    call, and the arguments it captured, are identified with the job. *)
Abbreviation job := nat (only parsing).

(** The states of a JavaScript promise. *)
Inductive pstate := Pending | Fulfilled | Rejected.

#[global] Instance pstate_eq_dec : EqDecision pstate.
Proof. solve_decision. Defined.

(** A piece of what [console.error] is given. *)
Inductive text :=
| Red (input : string)
    (* colors.red(input) *)
| RedCompilerErrorFor (j : job)
    (* colors.red('Compiler error for ' + outputFilename + ':\n'), with
       the outputFilename of the call j *)
| Formatted (message : string).
    (* formatClosureCompilerError(message) *)

(** What is written to the terminal by one [console.error]. *)
Abbreviation report := (list text).

(** [colors.red(input, ...more)]: the style functions of ansi-colors
    take one argument, the text to style; arguments after it are not
    read. *)
Definition colors_red (input : string) (more : list string) : text :=
  Red input.

(** The trace of one run: writes to [inProgress], calls that leave the
    module, and the calls of the queued closures. *)
Inductive obs :=
| ObsShift (j : job) (n : Z)   (* queue.shift()() took j; inProgress was n *)
| ObsInc (n : Z)               (* inProgress++ stored n *)
| ObsCompile (j : job)         (* compile(...) called with the arguments of j *)
| ObsDot                       (* process.stdout.write('.') *)
| ObsDec (n : Z)               (* inProgress-- stored n *)
| ObsResolve (j : job)         (* resolve() of the promise returned for j *)
| ObsError (r : report)        (* console.error(...) *)
| ObsExit (code : Z).          (* process.exit(code) *)

#[global] Instance text_eq_dec : EqDecision text.
Proof. solve_decision. Defined.

#[global] Instance obs_eq_dec : EqDecision obs.
Proof. solve_decision. Defined.

(** What the module reads from its surroundings: the constant bounding
    the number of invocations and [process.env.TRAVIS]. *)
Record config := Config {
  max_parallel : Z;
  travis : bool;
}.

Definition MAX_PARALLEL_CLOSURE_INVOCATIONS : Z := 4.

(** The program as it is written, on and off Travis. *)
Definition compile_js (on_travis : bool) : config :=
  Config MAX_PARALLEL_CLOSURE_INVOCATIONS on_travis.

Record state := State {
  queue : list job;        (* const queue = [] *)
  inProgress : Z;          (* let inProgress = 0 *)
  promises : list pstate;  (* the promise returned by the j-th call *)
  running : list job;      (* jobs whose compile(...) promise is pending *)
  out : list obs;          (* the trace so far *)
  exited : option Z;       (* the status given to process.exit, if called *)
}.

Definition init : state := State [] 0 [] [] [] None.

Definition set_queue (q : list job) (s : state) : state :=
  State q (inProgress s) (promises s) (running s) (out s) (exited s).
Definition set_inProgress (n : Z) (s : state) : state :=
  State (queue s) n (promises s) (running s) (out s) (exited s).
Definition set_promises (p : list pstate) (s : state) : state :=
  State (queue s) (inProgress s) p (running s) (out s) (exited s).
Definition set_running (r : list job) (s : state) : state :=
  State (queue s) (inProgress s) (promises s) r (out s) (exited s).
Definition emit (o : obs) (s : state) : state :=
  State (queue s) (inProgress s) (promises s) (running s) (out s ++ [o])
        (exited s).
Definition set_exited (c : Z) (s : state) : state :=
  State (queue s) (inProgress s) (promises s) (running s) (out s) (Some c).

(** ** The functions of [closureCompile] *)

Section Limiter.
Variable cfg : config.

(** [function start()] of the call [j]: count the job and call
    [compile], whose promise stays pending until a later turn. *)
Definition start (j : job) (s : state) : state :=
  let s1 := emit (ObsInc (inProgress s + 1))
                 (set_inProgress (inProgress s + 1) s) in
  emit (ObsCompile j) (set_running (running s1 ++ [j]) s1).

(** [function next()]: an [if], not a loop. *)
Definition next (s : state) : state :=
  match queue s with
  | [] => s
  | j :: q =>
      if bool_decide (inProgress s < max_parallel cfg)%Z
      then start j (emit (ObsShift j (inProgress s)) (set_queue q s))
      else s
  end.

(** [resolve()] of the promise of [j]: a settled promise stays as it is. *)
Definition resolve (j : job) (s : state) : state :=
  let p := match promises s !! j with
           | Some Pending => <[j := Fulfilled]> (promises s)
           | _ => promises s
           end in
  emit (ObsResolve j) (set_promises p s).

(** [process.exit(code)]: the process is gone. *)
Definition process_exit (code : Z) (s : state) : state :=
  set_exited code (emit (ObsExit code) s).

(** [new Promise(...)] up to [queue.push(start)]: the promise of the
    new job is pending and its [start] is at the back of the queue. *)
Definition push_start (s : state) : job * state :=
  let j := length (promises s) in
  let s1 := set_promises (promises s ++ [Pending]) s in
  (j, set_queue (queue s1 ++ [j]) s1).

(** [exports.closureCompile]: a new promise whose executor pushes
    [start] and calls [next].  The result is the job and the state. *)
Definition closureCompile (s : state) : job * state :=
  ((push_start s).1, next (push_start s).2).

(** The first handler given to [then] in [start], up to
    [inProgress--]: the progress dot on Travis, then the decrement. *)
Definition count_done (s : state) : state :=
  let s1 := if travis cfg then emit ObsDot s else s in
  emit (ObsDec (inProgress s1 - 1)) (set_inProgress (inProgress s1 - 1) s1).

(** The first handler given to [then] in [start]. *)
Definition on_fulfilled (j : job) (s : state) : state :=
  resolve j (next (count_done s)).

(** The second handler given to [then] in [start]. *)
Definition on_rejected (j : job) (message : string) (s : state) : state :=
  process_exit 1
    (emit (ObsError [colors_red "Compilation error:" [message]]) s).

(** The ['error'] handler that [compile] puts on the compiler stream. *)
Definition on_stream_error (j : job) (message : string) (s : state)
  : state :=
  process_exit 1
    (emit (ObsError [RedCompilerErrorFor j; Formatted message]) s).

(** ** The event loop *)

(** The turns the environment can schedule. *)
Inductive event :=
| Submit                                   (* a call of closureCompile *)
| CompileOk (j : job)                      (* compile's promise fulfils *)
| CompileThrow (j : job) (message : string)  (* compile's promise rejects *)
| StreamError (j : job) (message : string).  (* the stream emits 'error' *)

(** The settled job leaves [running]. *)
Definition settle (j : job) (s : state) : state :=
  set_running (filter (λ k, k ≠ j) (running s)) s.

(** One turn.  Nothing runs in a process that has exited, and only the
    promise of a [compile] that was called and is pending can settle. *)
Definition step (e : event) (s : state) : option state :=
  match exited s with
  | Some _ => None
  | None =>
      match e with
      | Submit => Some (closureCompile s).2
      | CompileOk j =>
          if decide (j ∈ running s)
          then Some (on_fulfilled j (settle j s)) else None
      | CompileThrow j m =>
          if decide (j ∈ running s)
          then Some (on_rejected j m (settle j s)) else None
      | StreamError j m =>
          if decide (j ∈ running s)
          then Some (on_stream_error j m (settle j s)) else None
      end
  end.

Fixpoint run (tr : list event) (s : state) : option state :=
  match tr with
  | [] => Some s
  | e :: tr' =>
      match step e s with
      | Some s' => run tr' s'
      | None => None
      end
  end.

Definition reachable (s : state) : Prop :=
  ∃ tr, run tr init = Some s.

End Limiter.

(** ** Reading the trace *)

(** The jobs whose [compile] was called, in the order of the calls. *)
Fixpoint starts (l : list obs) : list job :=
  match l with
  | [] => []
  | ObsCompile j :: l' => j :: starts l'
  | _ :: l' => starts l'
  end.

Definition started (s : state) : list job := starts (out s).

(** Every count stored by [inProgress++] and [inProgress--] is within
    [0 .. m], and every [queue.shift()()] found the count below [m]. *)
Definition obs_bounded (m : Z) (o : obs) : Prop :=
  match o with
  | ObsShift _ n => (0 ≤ n < m)%Z
  | ObsInc n => (0 ≤ n ≤ m)%Z
  | ObsDec n => (0 ≤ n ≤ m)%Z
  | _ => True
  end.

(** ** Invariants of the module state *)

(** What holds of the shared state whatever the bound is: the jobs in
    the order of their calls are the started ones followed by the queued
    ones, the pending compilations are started jobs, the counter counts
    them while the process lives, and no returned promise is rejected. *)
Record wf (s : state) : Prop := Wf {
  wf_order : started s ++ queue s = seq 0 (length (promises s));
  wf_running : ∀ j, j ∈ running s → j ∈ started s;
  wf_nodup : NoDup (running s);
  wf_count : exited s = None → inProgress s = Z.of_nat (length (running s));
  wf_promises : ∀ j, promises s !! j ≠ Some Rejected;
}.

(** What holds of it for a bound [m] that is not negative. *)
Record bounded (m : Z) (s : state) : Prop := Bounded {
  bd_range : (0 ≤ inProgress s ≤ m)%Z;
  bd_busy : queue s ≠ [] → inProgress s = m;
  bd_trace : Forall (obs_bounded m) (out s);
}.

(** The states in which the program calls [next]: the counter is within
    the bound, and if there is room then one start fills the room or
    empties the queue. *)
Record ready (m : Z) (s : state) : Prop := Ready {
  rd_range : (0 ≤ inProgress s ≤ m)%Z;
  rd_room : (inProgress s < m)%Z →
            length (queue s) ≤ 1 ∨ (inProgress s + 1 = m)%Z;
  rd_trace : Forall (obs_bounded m) (out s);
}.

(** The advance operation as the specification words it: a loop that
    pops and starts jobs while there is one and the counter is below the
    bound.  It recurses on the queue, which each round shortens. *)
Fixpoint advance_loop (m : Z) (q : list job) (s : state) : state :=
  match q with
  | [] => s
  | j :: q' =>
      if bool_decide (inProgress s < m)%Z
      then advance_loop m q'
             (start j (emit (ObsShift j (inProgress s)) (set_queue q' s)))
      else s
  end.

Definition advance (cfg : config) (s : state) : state :=
  advance_loop (max_parallel cfg) (queue s) s.

(** The calls of [next] that the program makes: [next_call cfg s s1]
    when a turn that begins in [s] calls [next] in the state [s1].
    There are two, at the end of the executor in [closureCompile] and
    after the decrement in the success handler. *)
Inductive next_call (cfg : config) (s : state) : state → Prop :=
| NextInClosureCompile :
    exited s = None → next_call cfg s (push_start s).2
| NextInOnFulfilled j :
    exited s = None → j ∈ running s →
    next_call cfg s (count_done cfg (settle j s)).

(** The events of a run in which no job fails. *)
Definition is_failure (e : event) : bool :=
  match e with
  | CompileThrow _ _ | StreamError _ _ => true
  | _ => false
  end.

Definition is_completion (e : event) : bool :=
  match e with
  | CompileOk _ => true
  | _ => false
  end.

Definition completions (tr : list event) : nat :=
  length (filter (λ e, is_completion e = true) tr).

Definition no_failure (tr : list event) : Prop :=
  Forall (λ e, is_failure e = false) tr.

(** ** The options that [compile] assembles

    Strings are sequences of code units; the patterns that the code
    searches for are ASCII, so the functions below read the same on the
    UTF-16 units of JavaScript and on bytes. *)

(** [s.includes(pat)] *)
Fixpoint includes (pat s : string) : bool :=
  String.prefix pat s
  || match s with
     | EmptyString => false
     | String _ r => includes pat r
     end.

(** [s.slice(n)] *)
Fixpoint string_drop (n : nat) (s : string) : string :=
  match n, s with
  | S n', String _ r => string_drop n' r
  | _, _ => s
  end.

(** [s.replace(pat, rep)] for a string [pat] and a [rep] without [$]:
    the first occurrence, if there is one. *)
Fixpoint replace_first (pat rep s : string) : string :=
  if String.prefix pat s then rep +:+ string_drop (String.length pat) s
  else match s with
       | EmptyString => EmptyString
       | String c r => String c (replace_first pat rep r)
       end.

(** [s.replace(/\//g, '_')] *)
Fixpoint replace_slashes (s : string) : string :=
  match s with
  | EmptyString => EmptyString
  | String c r =>
      String (if Ascii.eqb c "/" then "_"%char else c) (replace_slashes r)
  end.

(** [s.replace(/^\./, '')] *)
Definition strip_leading_dot (s : string) : string :=
  match s with
  | EmptyString => EmptyString
  | String c r => if Ascii.eqb c "." then r else s
  end.

(** [const intermediateFilename] *)
Definition intermediateFilename (entryModuleFilename : string) : string :=
  "build/cc/" +:+ strip_leading_dot (replace_slashes entryModuleFilename).

(** The regular expression [[^/]+\.js$] at the start of [t]: a character
    that is not a slash, and then either [.js] and the end, or the same
    again. *)
Fixpoint js_segment (t : string) : bool :=
  match t with
  | EmptyString => false
  | String c r =>
      negb (Ascii.eqb c "/") && (String.eqb r ".js" || js_segment r)
  end.

(** [filename.replace(/\/[^/]+\.js$/, '/**/*.js')]: the leftmost slash
    from which the expression matches up to the end. *)
Fixpoint sibling_glob (filename : string) : string :=
  match filename with
  | EmptyString => EmptyString
  | String c r =>
      if Ascii.eqb c "/" && js_segment r then "/**/*.js"
      else String c (sibling_glob r)
  end.

Definition newline : string := String "010"%char EmptyString.

(** What [compile] reads from the command line. *)
Record argv := Argv {
  argv_typecheck_only : bool;
  argv_pseudo_names : bool;
  argv_fortesting : bool;
  argv_type : bool;          (* isProdBuild = !!argv.type *)
}.

(** The [options] argument; [None] is a property that is not set. *)
Record options := Options {
  opt_checkTypes : bool;
  opt_preventRemoveAndMakeDir : bool;
  opt_wrapper : option string;
  opt_extraGlobs : option (list string);
  opt_include3pDirectories : bool;
  opt_includePolyfills : bool;
  opt_externs : option (list string);
  opt_compilationLevel : option string;
}.

(** The first argument: a file name or an array of file names. *)
Inductive entry_arg :=
| EntryString (f : string)
| EntryArray (l : list string).

(** [entryModuleFilenames] after the [instanceof Array] test. *)
Definition entryModuleFilenames (e : entry_arg) : list string :=
  match e with
  | EntryString f => [f]
  | EntryArray l => l
  end.

(** [entryModuleFilename]; [None] is [undefined], the first element of
    an empty array. *)
Definition entryModuleFilename (e : entry_arg) : option string :=
  match e with
  | EntryString f => Some f
  | EntryArray l => head l
  end.

(** A string option in a condition: unset and empty are false. *)
Definition truthy (o : option string) : option string :=
  match o with
  | Some EmptyString => None
  | _ => o
  end.

(** [let wrapper] *)
Definition wrapper (o : options) (outputFilename : string) : string :=
  match truthy (opt_wrapper o) with
  | Some w => replace_first "<%= contents %>" "%output%" w
  | None => "(function(){%output%})();"
  end
  +:+ newline +:+ "//# sourceMappingURL=" +:+ outputFilename
  +:+ ".map" +:+ newline.

(** [let sourceMapBase] *)
Definition sourceMapBase (a : argv) (internalRuntimeVersion : string)
  : string :=
  if argv_type a
  then "https://raw.githubusercontent.com/ampproject/amphtml/"
       +:+ internalRuntimeVersion +:+ "/"
  else "http://localhost:8000/".

(** The literal that [srcs] starts from. *)
Definition base_srcs : list string :=
  [ "3p/3p.js";
    "ads/_*.js";
    "ads/alp/**/*.js";
    "ads/google/**/*.js";
    "ads/inabox/**/*.js";
    "build/css.js";
    "build/*.css.js";
    "build/fake-module/**/*.js";
    "build/patched-module/**/*.js";
    "build/experiments/**/*.js";
    "extensions/amp-ad-network*/**/*-config.js";
    "extensions/amp-ad/**/*.js";
    "extensions/amp-a4a/**/*.js";
    "extensions/amp-analytics/**/*.js";
    "extensions/amp-animation/**/*.js";
    "extensions/amp-bind/**/*.js";
    "extensions/amp-form/**/*.js";
    "extensions/amp-access/**/*.js";
    "extensions/amp-story/**/*.js";
    "extensions/amp-subscriptions/**/*.js";
    "extensions/amp-user-notification/**/*.js";
    "extensions/amp-viewer-integration/**/*.js";
    "src/*.js";
    "src/!(inabox)*/**/*.js";
    "!third_party/babel/custom-babel-helpers.js";
    "!extensions/amp-access/0.1/amp-login-done.js";
    "builtins/**.js";
    "third_party/caja/html-sanitizer.js";
    "third_party/closure-library/sha384-generated.js";
    "third_party/css-escape/css-escape.js";
    "third_party/mustache/**/*.js";
    "third_party/timeagojs/**/*.js";
    "third_party/vega/**/*.js";
    "third_party/d3/**/*.js";
    "third_party/subscriptions-project/*.js";
    "third_party/webcomponentsjs/ShadowCSS.js";
    "third_party/rrule/rrule.js";
    "third_party/react-dates/bundle.js";
    "node_modules/promise-pjs/promise.js";
    "node_modules/web-animations-js/web-animations.install.js";
    "node_modules/web-activities/activity-ports.js";
    "build/patched-module/document-register-element/build/document-register-element.node.js";
    "!node_modules/core-js/modules/library/**.js";
    "!**_test.js";
    "!**/test-*.js";
    "!**/*.extern.js" ].

(** The paths pushed by [entryModuleFilenames.forEach]. *)
Definition extension_globs (filenames : list string) : list string :=
  flat_map (λ filename,
              if includes "extensions/" filename
              then [sibling_glob filename] else []) filenames.

(** [const srcs] when the compiler is started. *)
Definition srcs (o : options) (e : entry_arg) : list string :=
  base_srcs
  ++ extension_globs (entryModuleFilenames e)
  ++ default [] (opt_extraGlobs o)
  ++ (if opt_include3pDirectories o then ["3p/**/*.js"; "ads/**/*.js"] else [])
  ++ (if opt_includePolyfills o
      then ["!build/fake-module/src/polyfills.js";
            "!build/fake-module/src/polyfills/**/*.js"]
      else ["!src/polyfills.js"]).


(** [let externs] *)
Definition externs (o : options) : list string :=
  [ "build-system/amp.extern.js";
    "third_party/closure-compiler/externs/intersection_observer.js";
    "third_party/closure-compiler/externs/performance_observer.js";
    "third_party/closure-compiler/externs/shadow_dom.js";
    "third_party/closure-compiler/externs/streams.js";
    "third_party/closure-compiler/externs/web_animations.js";
    "third_party/moment/moment.extern.js";
    "third_party/react-externs/externs.js" ]
  ++ default [] (opt_externs o).

(** [const checkTypes], which is also the condition of
    [if (argv.typecheck_only || checkTypes)]. *)
Definition checkTypes (a : argv) (o : options) : bool :=
  opt_checkTypes o || argv_typecheck_only a.

Record compilerFlags := CompilerFlags {
  compilation_level : string;
  assume_function_wrapper : bool;
  language_in : string;
  language_out : string;
  rewrite_polyfills : bool;
  flag_externs : list string;
  js_module_root : list string;
  entry_point : list string;
  process_common_js_modules : bool;
  only_closure_dependencies : bool;
  output_wrapper : string;
  create_source_map : string;
  source_map_location_mapping : string;
  warning_level : string;
  jscomp_off : list string;
  define : option (list string);   (* [None] after [delete] *)
  hide_warnings_for : list string;
  jscomp_error : list string;
  conformance_configs : option string;
}.

Record compilerOptions := CompilerOptions {
  compilerPath : string;
  fileName : string;
  continueWithWarnings : bool;
  tieredCompilation : bool;
  flags : compilerFlags;
}.

(** [compilerFlags.define] after the three pushes and the [delete]. *)
Definition defines (a : argv) (o : options) : option (list string) :=
  let d := (if argv_typecheck_only a || checkTypes a o
            then ["TYPECHECK_ONLY=true"] else [])
           ++ (if argv_pseudo_names a then ["PSEUDO_NAMES=true"] else [])
           ++ (if argv_fortesting a then ["FORTESTING=true"] else []) in
  if length d =? 0 then None else Some d.

(** [const compilerOptions] when the compiler is started. *)
Definition compilerOptions_of (a : argv) (o : options)
    (internalRuntimeVersion : string) (e : entry_arg)
    (first outputFilename : string) : compilerOptions :=
  let typecheck := argv_typecheck_only a || checkTypes a o in
  CompilerOptions
    "build-system/runner/dist/runner.jar"
    (intermediateFilename first)
    false
    true
    (CompilerFlags
       (default "SIMPLE_OPTIMIZATIONS" (truthy (opt_compilationLevel o)))
       true "ECMASCRIPT6" "ECMASCRIPT5" false
       (externs o)
       ["node_modules/"; "build/patched-module/"; "build/fake-module/"]
       (entryModuleFilenames e)
       true true
       (wrapper o outputFilename)
       (intermediateFilename first +:+ ".map")
       ("|" +:+ sourceMapBase a internalRuntimeVersion)
       "DEFAULT"
       ["unknownDefines"]
       (defines a o)
       [ "third_party/caja/";
         "third_party/closure-library/sha384-generated.js";
         "third_party/subscriptions-project/";
         "third_party/d3/";
         "third_party/mustache/";
         "third_party/vega/";
         "third_party/webcomponentsjs/";
         "third_party/rrule/";
         "third_party/react-dates/";
         "node_modules/";
         "build/patched-module/";
         "3p/environment.js";
         "extensions/amp-access/0.1/access-expr-impl.js" ]
       (if typecheck
        then ["checkTypes"; "accessControls"; "const"; "constantProperty";
              "globalThis"]
        else [])
       (if typecheck
        then Some "build-system/conformance-config.textproto" else None)).

(** What the executor of [compile] throws before it starts the
    compiler. *)
Inductive thrown :=
| UndefinedHasNoReplace     (* TypeError: entryModuleFilename is undefined *)
| UnlinkOfADirectory        (* EISDIR: fs.unlinkSync('build/cc/') *)
| ShouldCompileWithProdToken.  (* Error('Should compile with a prod token') *)

(** The values with which the executor of [compile] starts the
    compiler: the globs for [gulp.src] and the options of
    [closureCompiler], or what it throws before.  When the entry module
    is the empty string or a single dot, [intermediateFilename] is the
    directory [build/cc/], which [cleanupBuildDir] has just made, and
    [fs.unlinkSync] throws on it before the token is looked at.  The
    other calls to the file system (cleaning the build directory,
    patching document-register-element, writing the fake files) take no
    part in these values; they throw only for faults of the machine (a
    missing module, a directory that cannot be written, a [build/cc]
    left behind when [preventRemoveAndMakeDir] is set), which are not
    modelled. *)
Definition compile_setup (a : argv) (o : options)
    (internalRuntimeToken internalRuntimeVersion : string)
    (e : entry_arg) (outputFilename : string)
  : thrown + (list string * compilerOptions) :=
  match entryModuleFilename e with
  | None => inl UndefinedHasNoReplace
  | Some first =>
      if negb (opt_preventRemoveAndMakeDir o)
         && String.eqb (intermediateFilename first) "build/cc/"
      then inl UnlinkOfADirectory
      else if includes "development" internalRuntimeToken
      then inl ShouldCompileWithProdToken
      else inr (srcs o e,
                compilerOptions_of a o internalRuntimeVersion e first
                  outputFilename)
  end.

(** ** Sample runs *)

(** Six calls of [closureCompile], then the second job completes. *)
Definition six_calls : list event :=
  [Submit; Submit; Submit; Submit; Submit; Submit].

Definition six_calls_state : state :=
  Eval vm_compute in default init (run (compile_js true) six_calls init).

Definition demo_trace : list event := six_calls ++ [CompileOk 1].

Definition demo_state : state :=
  Eval vm_compute in default init (run (compile_js true) demo_trace init).


(** Two calls under the bound of the program: both jobs run. *)
Definition two_running_state : state :=
  Eval vm_compute in
    default init (run (compile_js false) [Submit; Submit] init).

(** The message of the error that [compile] throws for a development
    token. *)
Definition prod_token_message : string := "Should compile with a prod token".

(** The scenario with a bound of one: two calls, and the first job fails. *)
Definition one_at_a_time : config := Config 1 false.

Definition two_calls : list event := [Submit; Submit].

Definition two_calls_state : state :=
  Eval vm_compute in default init (run one_at_a_time two_calls init).

(** A command line without flags, and an [options] object without
    properties. *)
Definition no_flags : argv := Argv false false false false.

Definition plain_options : options :=
  Options false false None None false false None None.

#[global] Instance event_eq_dec : EqDecision event.
Proof. solve_decision. Defined.

(** ** Counting in traces, and what [compile] lets happen *)

(** How often the effect [o] occurs in a trace. *)
Definition count_obs (o : obs) (l : list obs) : nat :=
  length (filter (λ x, x = o) l).

(** [compile] passes [resolve] to a stream only inside
    [if (!argv.typecheck_only)]: with the flag set, the executor can
    throw and the compiler stream can emit ['error'], but nothing
    fulfils the promise. *)
Definition compile_may (argv_typecheck_only : bool) (e : event) : bool :=
  match e with
  | CompileOk _ => negb argv_typecheck_only
  | _ => true
  end.

(** * Lemmas *)

Lemma starts_app l l' : starts (l ++ l') = starts l ++ starts l'.
Proof.
  induction l as [|o l IH]; [done|].
  destruct o; simpl; by rewrite ?IH.
Qed.

Lemma run_app cfg tr1 tr2 s :
  run cfg (tr1 ++ tr2) s = run cfg tr1 s ≫= run cfg tr2.
Proof.
  revert s. induction tr1 as [|e tr1 IH]; intros s; simpl; [done|].
  destruct (step cfg e s); simpl; [apply IH|done].
Qed.

Lemma run_snoc cfg tr e s s' :
  run cfg (tr ++ [e]) s = Some s' ↔
  ∃ s0, run cfg tr s = Some s0 ∧ step cfg e s0 = Some s'.
Proof.
  rewrite run_app. destruct (run cfg tr s) as [s0|]; simpl.
  - destruct (step cfg e s0) as [s1|] eqn:Hs; split.
    + intros [= <-]. by exists s0.
    + intros (s2 & [= <-] & H2). congruence.
    + done.
    + intros (s2 & [= <-] & H2). congruence.
  - split; [done|]. by intros (? & ? & ?).
Qed.

(** [next] either leaves the state alone or starts the job at the front. *)
Lemma next_cases cfg s :
  (next cfg s = s ∧ (queue s = [] ∨ ¬ (inProgress s < max_parallel cfg)%Z))
  ∨ (∃ j q, queue s = j :: q ∧ (inProgress s < max_parallel cfg)%Z ∧
       next cfg s =
         State q (inProgress s + 1) (promises s) (running s ++ [j])
               (out s ++ [ObsShift j (inProgress s);
                          ObsInc (inProgress s + 1); ObsCompile j])
               (exited s)).
Proof.
  unfold next. destruct (queue s) as [|j q] eqn:Hq; [left; auto|].
  case_bool_decide as Hlt; [right|left; auto].
  exists j, q. split_and!; [done..|].
  unfold start, emit, set_running, set_inProgress, set_queue; simpl.
  by rewrite <- !app_assoc.
Qed.

Lemma step_alive cfg e s s' : step cfg e s = Some s' → exited s = None.
Proof. unfold step. by destruct (exited s). Qed.

Lemma filter_ne_absent (j : job) (l : list job) :
  j ∉ l → filter (λ k, k ≠ j) l = l.
Proof.
  induction l as [|x l IH]; intros Hj; [done|].
  apply not_elem_of_cons in Hj as [Hx Hl].
  rewrite filter_cons, decide_True by done. f_equal. by apply IH.
Qed.

Lemma filter_ne_length (j : job) (l : list job) :
  NoDup l → j ∈ l →
  S (length (filter (λ k, k ≠ j) l)) = length l.
Proof.
  induction 1 as [|x l Hx Hnd IH]; intros Hin; [by apply elem_of_nil in Hin|].
  rewrite filter_cons. case_decide as Hne.
  - simpl. f_equal. apply IH.
    apply elem_of_cons in Hin as [->|]; done.
  - assert (x = j) as -> by (destruct (decide (x = j)); [done|by elim Hne]).
    simpl. f_equal. f_equal. by apply filter_ne_absent.
Qed.

(** ** Preservation of [wf] *)

Lemma wf_init : wf init.
Proof.
  split; simpl.
  - done.
  - intros j Hj. by apply elem_of_nil in Hj.
  - constructor.
  - done.
  - done.
Qed.

Lemma wf_started_fresh s j q :
  wf s → queue s = j :: q → (j ∉ started s) ∧ (j ∉ running s).
Proof.
  intros Hwf Hq.
  assert (NoDup (started s ++ j :: q)) as Hnd.
  { rewrite <- Hq, (wf_order _ Hwf). apply NoDup_seq. }
  apply NoDup_app in Hnd as (_ & Hdis & _).
  assert (j ∉ started s) as Hj.
  { intros Hin. apply (Hdis j Hin). left. }
  split; [done|]. intros Hin. by apply Hj, (wf_running _ Hwf).
Qed.

Lemma wf_next cfg s : wf s → wf (next cfg s).
Proof.
  intros Hwf.
  destruct (next_cases cfg s) as [[-> _]|(j & q & Hq & Hlt & ->)]; [done|].
  destruct (wf_started_fresh s j q Hwf Hq) as [Hjs Hjr].
  destruct Hwf as [Hord Hrun Hnd Hcnt Hpr]. unfold started in *.
  split; unfold started; simpl.
  - rewrite starts_app. simpl. rewrite <- app_assoc. simpl.
    by rewrite <- Hq.
  - intros k Hk. rewrite starts_app. simpl.
    apply elem_of_app in Hk as [Hk|Hk]; apply elem_of_app; [left; auto|by right].
  - apply NoDup_app. split_and!; [done| |apply NoDup_singleton].
    intros k Hk Hk'. apply list_elem_of_singleton in Hk' as ->. done.
  - intros Hex. rewrite length_app, (Hcnt Hex). simpl. lia.
  - done.
Qed.

Lemma wf_resolve j s : wf s → wf (resolve j s).
Proof.
  intros [Hord Hrun Hnd Hcnt Hpr]. unfold started in *.
  assert (∀ l : list obs, starts (l ++ [ObsResolve j]) = starts l) as Hst.
  { intros l. rewrite starts_app. simpl. apply app_nil_r. }
  split; unfold started, resolve; simpl; rewrite ?Hst; try done.
  - rewrite Hord. f_equal.
    destruct (promises s !! j) as [[]|]; by rewrite ?length_insert.
  - intros k. destruct (promises s !! j) as [[]|] eqn:Hj; try apply Hpr.
    destruct (decide (j = k)) as [<-|Hne].
    + rewrite list_lookup_insert_eq; [done|]. by eapply lookup_lt_Some.
    + rewrite list_lookup_insert_ne by done. apply Hpr.
Qed.

Lemma wf_settle_dec cfg j s :
  wf s → exited s = None → j ∈ running s →
  let s0 := settle j s in
  let s1 := if travis cfg then emit ObsDot s0 else s0 in
  wf (emit (ObsDec (inProgress s1 - 1))
           (set_inProgress (inProgress s1 - 1) s1)).
Proof.
  intros [Hord Hrun Hnd Hcnt Hpr] Hex Hj. unfold started in *.
  pose proof (filter_ne_length j (running s) Hnd Hj) as Hlen.
  assert (∀ l, starts (l ++ [ObsDot]) = starts l) as Hdot.
  { intros l. rewrite starts_app. simpl. apply app_nil_r. }
  assert (∀ l n, starts (l ++ [ObsDec n]) = starts l) as Hdec.
  { intros l n. rewrite starts_app. simpl. apply app_nil_r. }
  destruct (travis cfg); split; unfold started; simpl;
    rewrite ?Hdec, ?Hdot; try done.
  all: try (intros k Hk; apply Hrun; by apply list_elem_of_filter in Hk as [_ ?]).
  all: try by apply NoDup_filter.
  all: intros _; rewrite (Hcnt Hex); lia.
Qed.

Lemma wf_fail j r s :
  wf s → wf (process_exit 1 (emit (ObsError r) (settle j s))).
Proof.
  intros [Hord Hrun Hnd Hcnt Hpr]. unfold started in *.
  split; unfold started; simpl; try done.
  - rewrite !starts_app. simpl. by rewrite !app_nil_r.
  - intros k Hk. rewrite !starts_app. simpl. rewrite !app_nil_r.
    apply Hrun. by apply list_elem_of_filter in Hk as [_ ?].
  - by apply NoDup_filter.
Qed.

Lemma wf_push s :
  wf s →
  let s1 := set_promises (promises s ++ [Pending]) s in
  wf (set_queue (queue s1 ++ [length (promises s)]) s1).
Proof.
  intros [Hord Hrun Hnd Hcnt Hpr]. unfold started in *.
  split; unfold started; simpl; try done.
  - rewrite length_app. simpl. rewrite Nat.add_1_r, seq_S. simpl.
    by rewrite app_assoc, Hord.
  - intros k Hk. apply lookup_app_Some in Hk as [Hk|[_ Hk]]; [by apply Hpr in Hk|].
    by destruct (k - length (promises s)).
Qed.

Lemma wf_step cfg e s s' : wf s → step cfg e s = Some s' → wf s'.
Proof.
  intros Hwf Hstep. pose proof (step_alive _ _ _ _ Hstep) as Hex.
  unfold step in Hstep. rewrite Hex in Hstep.
  destruct e as [|j|j m|j m]; [|case_decide as Hj; [|done] ..];
    injection Hstep as <-.
  - apply wf_next. by apply wf_push.
  - apply wf_resolve, wf_next. by apply wf_settle_dec.
  - by apply wf_fail.
  - by apply wf_fail.
Qed.

(** ** Preservation of [bounded] *)

Lemma bounded_init m : (0 ≤ m)%Z → bounded m init.
Proof. intros Hm. split; simpl; [lia|done|constructor]. Qed.

Lemma ready_next cfg s :
  ready (max_parallel cfg) s → bounded (max_parallel cfg) (next cfg s).
Proof.
  intros [Hrange Hroom Htrace].
  destruct (next_cases cfg s) as [[-> Hno]|(j & q & Hq & Hlt & ->)].
  - split; [done| |done]. intros Hne. destruct Hno as [Hq|Hge]; [done|lia].
  - split; simpl.
    + lia.
    + intros Hne. destruct (Hroom Hlt) as [Hlen|Heq]; [|done].
      rewrite Hq in Hlen. destruct q; [done|simpl in Hlen; lia].
    + apply Forall_app. split; [done|].
      repeat constructor; simpl; lia.
Qed.

Lemma ready_next_advance cfg s :
  ready (max_parallel cfg) s → next cfg s = advance cfg s.
Proof.
  intros [Hrange Hroom Htrace]. unfold next, advance.
  destruct (queue s) as [|j q] eqn:Hq; [done|]. simpl.
  case_bool_decide as Hlt; [|done].
  destruct q as [|j' q]; [done|]. simpl.
  rewrite bool_decide_false; [done|].
  destruct (Hroom Hlt) as [Hlen|Heq]; [simpl in Hlen; lia|lia].
Qed.

Lemma ready_push m s :
  bounded m s →
  let s1 := set_promises (promises s ++ [Pending]) s in
  ready m (set_queue (queue s1 ++ [length (promises s)]) s1).
Proof.
  intros [Hrange Hbusy Htrace]. split; simpl; [done| |done].
  intros Hlt. left. destruct (queue s) as [|j q]; [done|].
  assert (inProgress s = m) by by apply Hbusy. lia.
Qed.

Lemma ready_settle_dec cfg j s :
  wf s → bounded (max_parallel cfg) s → exited s = None → j ∈ running s →
  let s0 := settle j s in
  let s1 := if travis cfg then emit ObsDot s0 else s0 in
  ready (max_parallel cfg)
        (emit (ObsDec (inProgress s1 - 1))
              (set_inProgress (inProgress s1 - 1) s1)).
Proof.
  intros Hwf [Hrange Hbusy Htrace] Hex Hj.
  assert (1 ≤ inProgress s)%Z as Hpos.
  { rewrite (wf_count _ Hwf Hex).
    destruct (running s); [by apply elem_of_nil in Hj|simpl; lia]. }
  destruct (travis cfg); split; simpl; try lia.
  all: try (intros _; destruct (queue s) as [|j' q] eqn:Hq; [left; simpl; lia|];
            right; rewrite Hbusy by done; lia).
  all: rewrite ?Forall_app; split_and?; try done.
  all: repeat constructor; simpl; lia.
Qed.

Lemma bounded_resolve m j s : bounded m s → bounded m (resolve j s).
Proof.
  intros [Hrange Hbusy Htrace]. split; simpl; [done..|].
  apply Forall_app. split; [done|]. by repeat constructor.
Qed.

Lemma bounded_fail m j r s :
  bounded m s → bounded m (process_exit 1 (emit (ObsError r) (settle j s))).
Proof.
  intros [Hrange Hbusy Htrace]. split; simpl; [done..|].
  rewrite !Forall_app. split_and!; [done|..]; by repeat constructor.
Qed.

Lemma bounded_step cfg e s s' :
  wf s → bounded (max_parallel cfg) s → step cfg e s = Some s' →
  bounded (max_parallel cfg) s'.
Proof.
  intros Hwf Hbd Hstep. pose proof (step_alive _ _ _ _ Hstep) as Hex.
  unfold step in Hstep. rewrite Hex in Hstep.
  destruct e as [|j|j m|j m]; [|case_decide as Hj; [|done] ..];
    injection Hstep as <-.
  - apply ready_next. by apply ready_push.
  - apply bounded_resolve, ready_next. by apply ready_settle_dec.
  - by apply bounded_fail.
  - by apply bounded_fail.
Qed.

(** Every state the program can be in satisfies both invariants. *)
Lemma run_inv cfg tr s0 s :
  wf s0 → bounded (max_parallel cfg) s0 → run cfg tr s0 = Some s →
  wf s ∧ bounded (max_parallel cfg) s.
Proof.
  revert s0. induction tr as [|e tr IH]; intros s0 Hwf Hbd Hrun; simpl in Hrun.
  - by injection Hrun as <-.
  - destruct (step cfg e s0) as [s1|] eqn:Hstep; [|done].
    eapply IH; [..|done].
    + by eapply wf_step.
    + by eapply bounded_step.
Qed.

Lemma reachable_inv cfg s :
  (0 ≤ max_parallel cfg)%Z → reachable cfg s →
  wf s ∧ bounded (max_parallel cfg) s.
Proof.
  intros Hm [tr Hrun].
  eapply run_inv; [apply wf_init|by apply bounded_init|done].
Qed.

Lemma run_wf cfg tr s0 s : wf s0 → run cfg tr s0 = Some s → wf s.
Proof.
  revert s0. induction tr as [|e tr IH]; intros s0 Hwf Hrun; simpl in Hrun.
  - by injection Hrun as <-.
  - destruct (step cfg e s0) as [s1|] eqn:Hstep; [|done].
    eapply IH; [|done]. by eapply wf_step.
Qed.

(** ** Facts about the order of starts *)

Lemma started_prefix s :
  wf s → started s = seq 0 (length (started s)).
Proof.
  intros Hwf. pose proof (wf_order _ Hwf) as Hord.
  apply (f_equal (take (length (started s)))) in Hord.
  rewrite take_app_length, take_seq in Hord.
  rewrite Hord at 1. f_equal.
  apply (f_equal length) in Hord. rewrite length_seq in Hord. lia.
Qed.

Lemma started_lt s j : wf s → j ∈ started s → j < length (promises s).
Proof.
  intros Hwf Hj.
  assert (j ∈ seq 0 (length (promises s))) as Hin.
  { rewrite <- (wf_order _ Hwf). apply elem_of_app. by left. }
  apply elem_of_seq in Hin. lia.
Qed.

Lemma seq_split_two a b k :
  a < b → b < k →
  seq 0 k = seq 0 a ++ a :: seq (S a) (b - S a) ++ b :: seq (S b) (k - S b).
Proof.
  intros Hab Hbk.
  replace k with (a + (1 + ((b - S a) + (1 + (k - S b))))) at 1 by lia.
  rewrite !seq_app. simpl. repeat f_equal; lia.
Qed.

Lemma seq_no_inversion a b k l1 l2 l3 :
  a < b → seq 0 k ≠ l1 ++ b :: l2 ++ a :: l3.
Proof.
  intros Hab Heq.
  assert (seq 0 k !! length l1 = Some b) as Hb.
  { rewrite Heq. by rewrite list_lookup_middle. }
  assert (seq 0 k !! (length l1 + S (length l2)) = Some a) as Ha.
  { rewrite Heq, lookup_app_r by lia.
    replace (length l1 + S (length l2) - length l1) with (S (length l2)) by lia.
    simpl. by rewrite list_lookup_middle. }
  apply lookup_seq in Hb as [Hb _]. apply lookup_seq in Ha as [Ha _]. lia.
Qed.

(** * The claims *)

(** C1. Whatever calls of [closureCompile] are made and however the
    completions of the jobs interleave with them, [inProgress] is never
    above the bound: not at the end of a turn, and not in any value that
    [inProgress++] or [inProgress--] stored on the way.  A job is taken
    off the queue and started only when [inProgress] is below the bound:
    every [queue.shift()()] of the run found it so, and [next] does
    nothing in any state where it is not. *)
Theorem in_flight_never_exceeds_bound cfg tr s :
  (0 ≤ max_parallel cfg)%Z →
  run cfg tr init = Some s →
  (0 ≤ inProgress s ≤ max_parallel cfg)%Z
  ∧ (∀ n, ObsInc n ∈ out s → (0 ≤ n ≤ max_parallel cfg)%Z)
  ∧ (∀ n, ObsDec n ∈ out s → (0 ≤ n ≤ max_parallel cfg)%Z)
  ∧ (∀ j n, ObsShift j n ∈ out s → (0 ≤ n < max_parallel cfg)%Z)
  ∧ (∀ s0, ¬ (inProgress s0 < max_parallel cfg)%Z → next cfg s0 = s0).
Proof.
  intros Hm Hrun.
  destruct (reachable_inv cfg s Hm) as [_ [Hrange _ Htrace]]; [by exists tr|].
  rewrite Forall_forall in Htrace.
  split_and!; [lia..| | | |].
  - intros n Hn. apply (Htrace _ Hn).
  - intros n Hn. apply (Htrace _ Hn).
  - intros j n Hn. apply (Htrace _ Hn).
  - intros s0 Hge.
    destruct (next_cases cfg s0) as [[-> _]|(j & q & _ & Hlt & _)]; [done|lia].
Qed.

Lemma in_flight_never_exceeds_bound_witness :
  (0 ≤ max_parallel (compile_js true))%Z
  ∧ run (compile_js true) demo_trace init = Some demo_state
  ∧ (0 ≤ inProgress demo_state ≤ MAX_PARALLEL_CLOSURE_INVOCATIONS)%Z.
Proof.
  assert (0 ≤ max_parallel (compile_js true))%Z as Hm by (by vm_compute).
  assert (run (compile_js true) demo_trace init = Some demo_state) as Hrun
    by reflexivity.
  split; [exact Hm|]. split; [exact Hrun|].
  exact (proj1 (in_flight_never_exceeds_bound _ _ _ Hm Hrun)).
Defined.

(** C2. Jobs start in the order of their calls.  With the jobs named by
    the number of their call, the started jobs followed by the queued
    ones are [0, 1, ..., n-1] at every point of every run: [push] adds
    at the back and [shift] takes from the front, nothing reorders.  So
    for calls [a] before [b], once [b] has started [a] has started
    earlier, and [b] is never found before [a] among the starts. *)
Theorem starts_follow_submission_order cfg tr s :
  run cfg tr init = Some s →
  started s ++ queue s = seq 0 (length (promises s))
  ∧ (∀ a b, a < b → b ∈ started s →
       ∃ l1 l2 l3, started s = l1 ++ a :: l2 ++ b :: l3)
  ∧ (∀ a b, a < b →
       ¬ ∃ l1 l2 l3, started s = l1 ++ b :: l2 ++ a :: l3)
  ∧ (∀ a b, a < b → b ∈ started s → a ∉ queue s).
Proof.
  intros Hrun. pose proof (run_wf cfg tr init s wf_init Hrun) as Hwf.
  pose proof (started_prefix s Hwf) as Hpre.
  split_and!.
  - apply (wf_order _ Hwf).
  - intros a b Hab Hb. rewrite Hpre in Hb. apply elem_of_seq in Hb.
    eexists _, _, _. rewrite Hpre at 1. apply seq_split_two; lia.
  - intros a b Hab (l1 & l2 & l3 & Heq). rewrite Hpre in Heq.
    by eapply seq_no_inversion.
  - intros a b Hab Hb Ha.
    assert (a ∈ started s) as Ha'.
    { rewrite Hpre in Hb |- *. apply elem_of_seq in Hb. apply elem_of_seq. lia. }
    assert (NoDup (started s ++ queue s)) as Hnd.
    { rewrite (wf_order _ Hwf). apply NoDup_seq. }
    apply NoDup_app in Hnd as (_ & Hdis & _). by apply (Hdis a).
Qed.

Lemma starts_follow_submission_order_witness :
  run (compile_js true) demo_trace init = Some demo_state
  ∧ started demo_state ++ queue demo_state = [0; 1; 2; 3; 4; 5].
Proof.
  assert (run (compile_js true) demo_trace init = Some demo_state) as Hrun
    by reflexivity.
  split; [exact Hrun|].
  exact (proj1 (starts_follow_submission_order _ _ _ Hrun)).
Defined.

(** C6. [next] does nothing when it has nothing to do: in every state
    where the queue is empty or the counter is at the bound, the state
    after [next] is the state before it, trace included, so neither the
    queue nor the counter changes and no job is started. *)
Theorem next_noop_when_idle_or_full cfg s :
  queue s = [] ∨ inProgress s = max_parallel cfg →
  next cfg s = s
  ∧ queue (next cfg s) = queue s
  ∧ inProgress (next cfg s) = inProgress s
  ∧ started (next cfg s) = started s.
Proof.
  intros Hidle.
  assert (next cfg s = s) as ->; [|done].
  destruct (next_cases cfg s) as [[-> _]|(j & q & Hq & Hlt & _)]; [done|].
  destruct Hidle as [Hnil|Hfull]; [congruence|lia].
Qed.

Lemma next_noop_when_idle_or_full_witness :
  (queue demo_state = [] ∨
   inProgress demo_state = max_parallel (compile_js true))
  ∧ next (compile_js true) demo_state = demo_state.
Proof.
  assert (queue demo_state = [] ∨
          inProgress demo_state = max_parallel (compile_js true)) as Hfull
    by (right; reflexivity).
  split; [exact Hfull|].
  exact (proj1 (next_noop_when_idle_or_full _ _ Hfull)).
Defined.

(** C9. At the end of every turn of every run, a queue that is not
    empty means that the counter is at the bound.  Hence the job of a
    call of [closureCompile] is started inside that call exactly when
    the counter is below the bound at the time of the call, and is left
    on the queue exactly when it is not: no job waits while there is
    room. *)
Theorem no_job_waits_while_a_slot_is_free cfg tr s :
  (0 ≤ max_parallel cfg)%Z →
  run cfg tr init = Some s →
  (queue s ≠ [] → inProgress s = max_parallel cfg)
  ∧ ((closureCompile cfg s).1 ∉ started s)
  ∧ ((closureCompile cfg s).1 ∈ started (closureCompile cfg s).2
       ↔ (inProgress s < max_parallel cfg)%Z)
  ∧ ((closureCompile cfg s).1 ∈ queue (closureCompile cfg s).2
       ↔ ¬ (inProgress s < max_parallel cfg)%Z)
  ∧ ((inProgress s < max_parallel cfg)%Z →
       queue (closureCompile cfg s).2 = []
       ∧ started (closureCompile cfg s).2
         = started s ++ [(closureCompile cfg s).1]).
Proof.
  intros Hm Hrun.
  destruct (reachable_inv cfg s Hm) as [Hwf [Hrange Hbusy _]]; [by exists tr|].
  assert (length (promises s) ∉ started s) as Hfresh.
  { intros Hin. apply (started_lt _ _ Hwf) in Hin. lia. }
  split; [done|]. split; [done|].
  unfold closureCompile; simpl.
  set (s1 := set_queue _ _).
  destruct (next_cases cfg s1) as [[-> Hno]|(j & q & Hq & Hlt & ->)].
  - destruct Hno as [Hq|Hge]; [by destruct (queue s)|].
    subst s1; simpl in *. split_and!.
    + split; [done|lia].
    + split; [done|]. intros _. apply elem_of_app. right. left.
    + lia.
  - subst s1; simpl in *.
    assert (queue s = []) as Hnil.
    { destruct (queue s); [done|]. assert (inProgress s = max_parallel cfg)
        by by apply Hbusy. lia. }
    rewrite Hnil in Hq. injection Hq as <- <-.
    unfold started; simpl. rewrite starts_app; simpl. split_and!.
    + split; [done|]. intros _. apply elem_of_app. right. left.
    + split; [|done]. intros Hin. by apply elem_of_nil in Hin.
    + done.
Qed.

Lemma no_job_waits_while_a_slot_is_free_witness :
  (0 ≤ max_parallel (compile_js true))%Z
  ∧ run (compile_js true) demo_trace init = Some demo_state
  ∧ (queue demo_state ≠ [] →
     inProgress demo_state = MAX_PARALLEL_CLOSURE_INVOCATIONS).
Proof.
  assert (0 ≤ max_parallel (compile_js true))%Z as Hm by (by vm_compute).
  assert (run (compile_js true) demo_trace init = Some demo_state) as Hrun
    by reflexivity.
  split; [exact Hm|]. split; [exact Hrun|].
  exact (proj1 (no_job_waits_while_a_slot_is_free _ _ _ Hm Hrun)).
Defined.

(** C10. The promise returned by [closureCompile] never rejects.  Its
    executor takes [resolve] alone, so the only write to the promise is
    the one that fulfils it: in every run every returned promise is
    pending or fulfilled, and the turn of a failing job leaves all the
    promises as they were and ends the process with status 1. *)
Theorem returned_promise_never_rejects cfg tr s :
  run cfg tr init = Some s →
  (∀ j, promises s !! j ≠ Some Rejected)
  ∧ (∀ j, j < length (promises s) →
       promises s !! j = Some Pending ∨ promises s !! j = Some Fulfilled)
  ∧ (∀ e s', is_failure e = true → step cfg e s = Some s' →
       promises s' = promises s ∧ exited s' = Some 1%Z).
Proof.
  intros Hrun. pose proof (run_wf cfg tr init s wf_init Hrun) as Hwf.
  split_and!.
  - apply (wf_promises _ Hwf).
  - intros j Hj. apply lookup_lt_is_Some in Hj as [p Hp].
    destruct p; [by left|by right|]. by apply (wf_promises _ Hwf) in Hp.
  - intros e s' Hfail Hstep. unfold step in Hstep.
    destruct (exited s); [done|].
    destruct e as [|j|j m|j m]; try done;
      (case_decide; [|done]); by injection Hstep as <-.
Qed.

Lemma returned_promise_never_rejects_witness :
  run one_at_a_time (two_calls ++ [CompileThrow 0 "boom"]) init
  = Some (on_rejected 0 "boom" (settle 0 two_calls_state))
  ∧ ∀ j, promises (on_rejected 0 "boom" (settle 0 two_calls_state)) !! j
         ≠ Some Rejected.
Proof.
  assert (run one_at_a_time (two_calls ++ [CompileThrow 0 "boom"]) init
          = Some (on_rejected 0 "boom" (settle 0 two_calls_state))) as Hrun
    by reflexivity.
  split; [exact Hrun|].
  exact (proj1 (returned_promise_never_rejects _ _ _ Hrun)).
Defined.

(** The turn of a failure, by the rejection of the promise of
    [compile] or by an ['error'] of the compiler stream: it writes one
    report and calls [process.exit(1)], and nothing else.  The status
    is not zero, the queue and the started jobs are as before, and no
    turn runs after it.  The report of a stream error holds the
    formatted message; the report of a rejection is the red text
    [Compilation error:] alone. *)
Lemma failure_stops_everything cfg s e s' :
  is_failure e = true →
  step cfg e s = Some s' →
  out s' = out s
           ++ [ObsError match e with
                        | StreamError j m => [RedCompilerErrorFor j; Formatted m]
                        | _ => [Red "Compilation error:"]
                        end;
               ObsExit 1]
  ∧ exited s' = Some 1%Z ∧ (1 ≠ 0)%Z
  ∧ queue s' = queue s
  ∧ started s' = started s
  ∧ (∀ e', step cfg e' s' = None)
  ∧ (∀ tr' s'', run cfg tr' s' = Some s'' → tr' = [] ∧ s'' = s').
Proof.
  intros Hfail Hstep.
  assert (exited s' = Some 1%Z ∧ queue s' = queue s ∧
          out s' = out s
           ++ [ObsError match e with
                        | StreamError j m => [RedCompilerErrorFor j; Formatted m]
                        | _ => [Red "Compilation error:"]
                        end;
               ObsExit 1]) as (Hex & Hq & Hout).
  { unfold step in Hstep. destruct (exited s); [done|].
    destruct e as [|j|j m|j m]; try done;
      (case_decide; [|done]); injection Hstep as <-; simpl;
      (split_and!; [done..|]); by rewrite <- app_assoc. }
  assert (∀ e', step cfg e' s' = None) as Hdead.
  { intros e'. unfold step. by rewrite Hex. }
  split_and!; try done.
  - unfold started. rewrite Hout, starts_app. simpl. apply app_nil_r.
  - intros [|e' tr'] s'' Hrun; simpl in Hrun.
    + by injection Hrun as <-.
    + by rewrite Hdead in Hrun.
Qed.

Lemma failure_stops_everything_witness :
  is_failure (CompileThrow 0 "boom") = true
  ∧ step one_at_a_time (CompileThrow 0 "boom") two_calls_state
    = Some (on_rejected 0 "boom" (settle 0 two_calls_state))
  ∧ started (on_rejected 0 "boom" (settle 0 two_calls_state)) = [0]
  ∧ ∀ e', step one_at_a_time e'
            (on_rejected 0 "boom" (settle 0 two_calls_state)) = None.
Proof.
  assert (is_failure (CompileThrow 0 "boom") = true) as Hfail by reflexivity.
  assert (step one_at_a_time (CompileThrow 0 "boom") two_calls_state
          = Some (on_rejected 0 "boom" (settle 0 two_calls_state))) as Hstep
    by reflexivity.
  split; [exact Hfail|]. split; [exact Hstep|].
  pose proof (failure_stops_everything _ _ _ _ Hfail Hstep)
    as (_ & _ & _ & _ & Hst & Hdead & _).
  split; [exact Hst|exact Hdead].
Defined.

(** C3. The error of a rejected job is not reported.  Two calls of
    [closureCompile] under the bound 4, and the [compile] of the first
    rejects with the message [Should compile with a prod token]: the
    turn of the rejection writes the red text [Compilation error:] and
    calls [process.exit(1)]; the message is handed to [colors.red] as a
    second argument and is no part of what is written, so that every
    rejection writes the same report.  The handler of a stream error,
    beside it, does write the formatted message.  For the rest, the
    status is 1, the jobs started are the two that were, and no turn
    runs afterwards. *)
Theorem rejection_report_omits_the_message :
  run (compile_js false)
      [Submit; Submit; CompileThrow 0 prod_token_message] init
  = Some (on_rejected 0 prod_token_message (settle 0 two_running_state))
  ∧ out (on_rejected 0 prod_token_message (settle 0 two_running_state))
    = out two_running_state
      ++ [ObsError [Red "Compilation error:"]; ObsExit 1]
  ∧ (∀ j message message' s,
       on_rejected j message s = on_rejected j message' s)
  ∧ (∀ j message s,
       out (on_stream_error j message s)
       = out s ++ [ObsError [RedCompilerErrorFor j; Formatted message];
                   ObsExit 1])
  ∧ exited (on_rejected 0 prod_token_message (settle 0 two_running_state))
    = Some 1%Z
  ∧ started (on_rejected 0 prod_token_message (settle 0 two_running_state))
    = [0; 1]
  ∧ ∀ e', step (compile_js false) e'
            (on_rejected 0 prod_token_message (settle 0 two_running_state))
          = None.
Proof.
  split_and!; [reflexivity..| | | | |].
  - done.
  - intros j message s. unfold on_stream_error; simpl.
    by rewrite <- app_assoc.
  - reflexivity.
  - reflexivity.
  - intros e'. reflexivity.
Qed.

(** The promise of [j] after [resolve j]. *)
Lemma resolve_lookup j s :
  j < length (promises s) → promises s !! j ≠ Some Rejected →
  promises (resolve j s) !! j = Some Fulfilled.
Proof.
  intros Hlt Hnr. unfold resolve, emit, set_promises. cbn [promises].
  destruct (promises s !! j) as [[]|] eqn:Hj.
  - by apply list_lookup_insert_eq.
  - done.
  - done.
  - apply lookup_ge_None in Hj. lia.
Qed.

Lemma resolve_lookup_ne j k s :
  j ≠ k → promises (resolve j s) !! k = promises s !! k.
Proof.
  intros Hne. unfold resolve, emit, set_promises. cbn [promises].
  destruct (promises s !! j) as [[]|]; try done.
  by apply list_lookup_insert_ne.
Qed.

Lemma count_done_fields cfg s :
  queue (count_done cfg s) = queue s
  ∧ inProgress (count_done cfg s) = (inProgress s - 1)%Z
  ∧ promises (count_done cfg s) = promises s
  ∧ exited (count_done cfg s) = exited s
  ∧ out (count_done cfg s)
    = out s ++ (if travis cfg then [ObsDot] else [])
            ++ [ObsDec (inProgress s - 1)].
Proof.
  unfold count_done. destruct (travis cfg); simpl; split_and!; try done.
  by rewrite <- app_assoc.
Qed.

(** The whole turn of a success, in a state that satisfies the
    invariants. *)
Lemma completion_turn cfg s j :
  wf s → bounded (max_parallel cfg) s → j ∈ running s →
  let s' := on_fulfilled cfg j (settle j s) in
  out s' = out s
           ++ (if travis cfg then [ObsDot] else [])
           ++ [ObsDec (inProgress s - 1)]
           ++ match queue s with
              | [] => []
              | k :: _ => [ObsShift k (inProgress s - 1);
                           ObsInc (inProgress s); ObsCompile k]
              end
           ++ [ObsResolve j]
  ∧ queue s' = tail (queue s)
  ∧ started s' = started s ++ match queue s with [] => [] | k :: _ => [k] end
  ∧ inProgress s' = match queue s with
                    | [] => (inProgress s - 1)%Z
                    | _ :: _ => inProgress s
                    end
  ∧ promises s' !! j = Some Fulfilled
  ∧ exited s' = exited s.
Proof.
  intros Hwf [Hrange Hbusy _] Hj.
  assert (j < length (promises s)) as Hlt.
  { apply (started_lt _ _ Hwf), (wf_running _ Hwf), Hj. }
  pose proof (wf_promises _ Hwf j) as Hnr.
  unfold on_fulfilled.
  destruct (count_done_fields cfg (settle j s)) as (Hq2 & Hn2 & Hp2 & He2 & Ho2).
  change (queue (settle j s)) with (queue s) in Hq2.
  change (inProgress (settle j s)) with (inProgress s) in Hn2, Ho2.
  change (promises (settle j s)) with (promises s) in Hp2.
  change (exited (settle j s)) with (exited s) in He2.
  change (out (settle j s)) with (out s) in Ho2.
  set (s2 := count_done cfg (settle j s)) in *. clearbody s2.
  assert (starts (if travis cfg then [ObsDot] else []) = []) as Hdot
    by by destruct (travis cfg).
  destruct (queue s) as [|k0 q0] eqn:Hqs.
  - assert (next cfg s2 = s2) as ->.
    { unfold next. by rewrite Hq2. }
    split_and!.
    + unfold resolve; simpl. rewrite Ho2. by rewrite <- !app_assoc.
    + unfold resolve; simpl. by rewrite Hq2.
    + unfold started, resolve; simpl.
      rewrite Ho2, !starts_app, Hdot. simpl. by rewrite !app_nil_r.
    + unfold resolve; simpl. by rewrite Hn2.
    + rewrite resolve_lookup; [done|by rewrite Hp2..].
    + done.
  - assert (inProgress s = max_parallel cfg) as Hfull by by apply Hbusy.
    destruct (next_cases cfg s2) as [[_ Hno]|(k & q & Hq & _ & Hnext)].
    { exfalso. rewrite Hq2, Hn2 in Hno. destruct Hno as [?|?]; [done|lia]. }
    rewrite Hq2 in Hq. injection Hq as <- <-.
    rewrite Hnext, Hn2, Ho2, Hp2, He2.
    replace (inProgress s - 1 + 1)%Z with (inProgress s) by lia.
    split_and!.
    + unfold resolve; simpl. by rewrite <- !app_assoc.
    + done.
    + unfold started, resolve; simpl.
      rewrite !starts_app, Hdot. simpl. by rewrite !app_nil_r.
    + done.
    + by rewrite resolve_lookup.
    + done.
Qed.

Lemma step_success cfg j s s' :
  step cfg (CompileOk j) s = Some s' →
  exited s = None ∧ j ∈ running s ∧ s' = on_fulfilled cfg j (settle j s).
Proof.
  unfold step. destruct (exited s); [done|]. case_decide; [|done].
  by intros [= <-].
Qed.

(** C4. The turn that handles the success of a running job [j] stores
    [inProgress - 1], then calls [next], which starts the job at the
    front of the queue if there is one and no job otherwise, and then
    calls [resolve] of the promise returned for [j]; the trace of the
    turn lists these effects in this order (after the progress dot on
    Travis). *)
Theorem completion_decrements_advances_resolves cfg tr s j s' :
  (0 ≤ max_parallel cfg)%Z →
  run cfg tr init = Some s →
  step cfg (CompileOk j) s = Some s' →
  out s' = out s
           ++ (if travis cfg then [ObsDot] else [])
           ++ [ObsDec (inProgress s - 1)]
           ++ match queue s with
              | [] => []
              | k :: _ => [ObsShift k (inProgress s - 1);
                           ObsInc (inProgress s); ObsCompile k]
              end
           ++ [ObsResolve j]
  ∧ queue s' = tail (queue s)
  ∧ started s' = started s ++ match queue s with [] => [] | k :: _ => [k] end
  ∧ inProgress s' = match queue s with
                    | [] => (inProgress s - 1)%Z
                    | _ :: _ => inProgress s
                    end
  ∧ promises s' !! j = Some Fulfilled.
Proof.
  intros Hm Hrun Hstep.
  destruct (reachable_inv cfg s Hm) as [Hwf Hbd]; [by exists tr|].
  apply step_success in Hstep as (_ & Hj & ->).
  destruct (completion_turn cfg s j Hwf Hbd Hj) as (? & ? & ? & ? & ? & _).
  done.
Qed.

Lemma completion_decrements_advances_resolves_witness :
  (0 ≤ max_parallel (compile_js true))%Z
  ∧ run (compile_js true) six_calls init = Some six_calls_state
  ∧ step (compile_js true) (CompileOk 1) six_calls_state = Some demo_state
  ∧ out demo_state
    = out six_calls_state
      ++ [ObsDot; ObsDec 3; ObsShift 4 3; ObsInc 4; ObsCompile 4; ObsResolve 1].
Proof.
  assert (0 ≤ max_parallel (compile_js true))%Z as Hm by (by vm_compute).
  assert (run (compile_js true) six_calls init = Some six_calls_state) as Hrun
    by reflexivity.
  assert (step (compile_js true) (CompileOk 1) six_calls_state
          = Some demo_state) as Hstep by reflexivity.
  split; [exact Hm|]. split; [exact Hrun|]. split; [exact Hstep|].
  exact (proj1 (completion_decrements_advances_resolves _ _ _ _ _
                  Hm Hrun Hstep)).
Defined.

(** ** What one turn does to the promises and to the trace *)

Lemma next_promises cfg s : promises (next cfg s) = promises s.
Proof.
  by destruct (next_cases cfg s) as [[-> _]|(k & q & _ & _ & ->)].
Qed.

Lemma next_out cfg s : ∃ l, out (next cfg s) = out s ++ l.
Proof.
  destruct (next_cases cfg s) as [[-> _]|(k & q & _ & _ & ->)].
  - exists []. by rewrite app_nil_r.
  - by eexists.
Qed.

Lemma step_out cfg e s s' :
  step cfg e s = Some s' → ∃ l, out s' = out s ++ l.
Proof.
  intros Hstep. unfold step in Hstep. destruct (exited s); [done|].
  destruct e as [|j|j m|j m]; [|case_decide as Hj; [|done] ..];
    injection Hstep as <-.
  - unfold closureCompile; simpl. set (s1 := set_queue _ _).
    destruct (next_out cfg s1) as [l ->]. by exists l.
  - unfold on_fulfilled, resolve; simpl.
    destruct (next_out cfg (count_done cfg (settle j s))) as [l ->].
    destruct (count_done_fields cfg (settle j s)) as (_ & _ & _ & _ & ->).
    simpl. rewrite <- !app_assoc. by eexists.
  - simpl. rewrite <- !app_assoc. by eexists.
  - simpl. rewrite <- !app_assoc. by eexists.
Qed.

Lemma step_started cfg e s s' k :
  step cfg e s = Some s' → k ∈ started s → k ∈ started s'.
Proof.
  intros Hstep Hk. destruct (step_out _ _ _ _ Hstep) as [l Hl].
  unfold started. rewrite Hl, starts_app. apply elem_of_app. by left.
Qed.


Lemma step_promises cfg e s s' j :
  wf s → step cfg e s = Some s' →
  promises s' !! j =
    match e with
    | Submit => (promises s ++ [Pending]) !! j
    | CompileOk k => if decide (k = j) then Some Fulfilled else promises s !! j
    | _ => promises s !! j
    end.
Proof.
  intros Hwf Hstep. unfold step in Hstep. destruct (exited s); [done|].
  destruct e as [|k|k m|k m]; [|case_decide as Hk; [|done] ..];
    injection Hstep as <-; try done.
  - unfold closureCompile; simpl. by rewrite next_promises.
  - unfold on_fulfilled. set (s2 := count_done cfg _).
    assert (promises s2 = promises s) as Hp2.
    { subst s2.
      by destruct (count_done_fields cfg (settle k s)) as (_ & _ & -> & _). }
    case_decide as Hkj.
    + subst k. apply resolve_lookup; rewrite next_promises, Hp2.
      * apply (started_lt _ _ Hwf), (wf_running _ Hwf), Hk.
      * apply (wf_promises _ Hwf).
    + by rewrite resolve_lookup_ne, next_promises, Hp2.
Qed.

(** The returned promise of [j] is fulfilled exactly in the runs in
    which the [compile] of [j] has fulfilled. *)
Lemma promise_fulfilled_iff cfg tr s j :
  run cfg tr init = Some s →
  promises s !! j = Some Fulfilled ↔ CompileOk j ∈ tr.
Proof.
  revert s. induction tr as [|e tr IH] using rev_ind; intros s Hrun.
  - injection Hrun as <-. simpl. split; [done|]. by intros ?%elem_of_nil.
  - apply run_snoc in Hrun as (s0 & Hrun & Hstep).
    pose proof (run_wf _ _ _ _ wf_init Hrun) as Hwf.
    rewrite (step_promises _ _ _ _ j Hwf Hstep), elem_of_app,
      list_elem_of_singleton, <- (IH _ Hrun).
    destruct e as [|k|k m|k m].
    + split; [|intros [Hj|?]; [|done]].
      * intros Hj. left.
        apply lookup_app_Some in Hj as [?|[_ Hj]]; [done|].
        by destruct (j - length (promises s0)).
      * apply lookup_app_l_Some, Hj.
    + case_decide as Hkj.
      * subst. split; [by right|done].
      * split; [by left|]. intros [?|[= ?]]; done.
    + split; [by left|by intros [?|?]].
    + split; [by left|by intros [?|?]].
Qed.

Lemma step_enabled_running cfg j s s' :
  step cfg (CompileOk j) s = Some s' → j ∈ running s.
Proof.
  unfold step. destruct (exited s); [done|]. by case_decide.
Qed.

Lemma completed_started cfg tr s j :
  run cfg tr init = Some s → CompileOk j ∈ tr → j ∈ started s.
Proof.
  revert s. induction tr as [|e tr IH] using rev_ind; intros s Hrun Hin.
  - by apply elem_of_nil in Hin.
  - apply run_snoc in Hrun as (s0 & Hrun & Hstep).
    pose proof (run_wf _ _ _ _ wf_init Hrun) as Hwf.
    apply elem_of_app in Hin as [Hin|Hin].
    + eapply step_started; [done|]. by apply IH.
    + apply list_elem_of_singleton in Hin as <-.
      eapply step_started; [done|].
      by eapply (wf_running _ Hwf), step_enabled_running.
Qed.

(** C7. The promise that [closureCompile] returned for the job [j] is
    fulfilled exactly in the runs in which the [compile] of [j] itself
    has fulfilled, and is pending in all the others: being queued, being
    started, and the completion of other jobs leave it pending.  When it
    is fulfilled the job has been started.  Turn by turn: a pending
    promise of [j] is fulfilled by a turn exactly when the turn is the
    success of the [compile] of [j]. *)
Theorem promise_resolves_with_its_own_job cfg tr s j :
  run cfg tr init = Some s →
  j < length (promises s) →
  (promises s !! j = Some Fulfilled ↔ CompileOk j ∈ tr)
  ∧ (promises s !! j = Some Pending ↔ CompileOk j ∉ tr)
  ∧ (promises s !! j = Some Fulfilled → j ∈ started s)
  ∧ (∀ e s', promises s !! j = Some Pending → step cfg e s = Some s' →
       (promises s' !! j = Some Fulfilled ↔ e = CompileOk j)).
Proof.
  intros Hrun Hlt.
  pose proof (run_wf _ _ _ _ wf_init Hrun) as Hwf.
  pose proof (promise_fulfilled_iff cfg tr s j Hrun) as Hiff.
  split_and!.
  - done.
  - rewrite <- Hiff. apply lookup_lt_is_Some in Hlt as [p Hp]. rewrite Hp.
    destruct p.
    + split; [by intros _ [= ?]|done].
    + split; [done|]. intros Hne. by elim Hne.
    + by apply (wf_promises _ Hwf) in Hp.
  - intros Hf. eapply completed_started; [done|]. by apply Hiff.
  - intros e s' Hp Hstep.
    rewrite (step_promises _ _ _ _ j Hwf Hstep).
    destruct e as [|k|k m|k m].
    + rewrite lookup_app_l by done. rewrite Hp. by split.
    + case_decide as Hk; [by subst|]. rewrite Hp.
      split; [done|]. by intros [= ?].
    + rewrite Hp. by split.
    + rewrite Hp. by split.
Qed.

Lemma promise_resolves_with_its_own_job_witness :
  run (compile_js true) demo_trace init = Some demo_state
  ∧ 1 < length (promises demo_state)
  ∧ (promises demo_state !! 1 = Some Fulfilled
     ↔ CompileOk 1 ∈ demo_trace).
Proof.
  assert (run (compile_js true) demo_trace init = Some demo_state) as Hrun
    by reflexivity.
  assert (1 < length (promises demo_state)) as Hlt by (vm_compute; lia).
  split; [exact Hrun|]. split; [exact Hlt|].
  exact (proj1 (promise_resolves_with_its_own_job _ _ _ _ Hrun Hlt)).
Defined.

(** ** [next] where the program calls it *)

Lemma next_call_ready cfg s s1 :
  wf s → bounded (max_parallel cfg) s → next_call cfg s s1 →
  ready (max_parallel cfg) s1.
Proof.
  intros Hwf Hbd [Hex|j Hex Hj].
  - by apply ready_push.
  - by apply ready_settle_dec.
Qed.

Lemma next_effect cfg s :
  (queue s ≠ [] ∧ (inProgress s < max_parallel cfg)%Z →
     ∃ j q, queue s = j :: q ∧ queue (next cfg s) = q
            ∧ inProgress (next cfg s) = (inProgress s + 1)%Z
            ∧ started (next cfg s) = started s ++ [j])
  ∧ (queue s = [] ∨ ¬ (inProgress s < max_parallel cfg)%Z → next cfg s = s).
Proof.
  destruct (next_cases cfg s) as [[Hsame Hno]|(j & q & Hq & Hlt & Hnext)].
  - split; [|done]. intros [Hne Hlt]. destruct Hno; [done|lia].
  - split.
    + intros _. exists j, q. rewrite Hnext. split_and!; try done.
      unfold started; simpl. by rewrite starts_app.
    + intros [Hnil|Hge]; [congruence|lia].
Qed.

(** C5. In every call of [next] that the program makes, in every run,
    one invocation does what the loop of the specification does: it
    pops and starts queued jobs while the queue is not empty and the
    counter is below the bound, so that when it returns (the increment
    of the [start] it invoked included) the queue is empty or the
    counter is at the bound.  The code reaches this with a single
    [if]: one call starts the job at the front when the queue is not
    empty and the counter is below the bound, and nothing otherwise,
    and at every call of the program that one start is all that the
    loop would do. *)
Theorem next_starts_at_most_one_job cfg tr s s1 :
  (0 ≤ max_parallel cfg)%Z →
  run cfg tr init = Some s →
  next_call cfg s s1 →
  (∀ s0,
     (queue s0 ≠ [] ∧ (inProgress s0 < max_parallel cfg)%Z →
        ∃ j q, queue s0 = j :: q ∧ queue (next cfg s0) = q
               ∧ inProgress (next cfg s0) = (inProgress s0 + 1)%Z
               ∧ started (next cfg s0) = started s0 ++ [j])
     ∧ (queue s0 = [] ∨ ¬ (inProgress s0 < max_parallel cfg)%Z →
        next cfg s0 = s0))
  ∧ (queue (next cfg s1) = [] ∨ inProgress (next cfg s1) = max_parallel cfg)
  ∧ next cfg s1 = advance cfg s1.
Proof.
  intros Hm Hrun Hcall.
  destruct (reachable_inv cfg s Hm) as [Hwf Hbd]; [by exists tr|].
  pose proof (next_call_ready _ _ _ Hwf Hbd Hcall) as Hready.
  split_and!.
  - apply next_effect.
  - destruct (ready_next cfg s1 Hready) as [_ Hbusy _].
    destruct (queue (next cfg s1)); [by left|right]. by apply Hbusy.
  - by apply ready_next_advance.
Qed.

Lemma next_starts_at_most_one_job_witness :
  (0 ≤ max_parallel (compile_js true))%Z
  ∧ run (compile_js true) six_calls init = Some six_calls_state
  ∧ next_call (compile_js true) six_calls_state
      (count_done (compile_js true) (settle 1 six_calls_state))
  ∧ next (compile_js true)
      (count_done (compile_js true) (settle 1 six_calls_state))
    = advance (compile_js true)
        (count_done (compile_js true) (settle 1 six_calls_state)).
Proof.
  assert (0 ≤ max_parallel (compile_js true))%Z as Hm by (by vm_compute).
  assert (run (compile_js true) six_calls init = Some six_calls_state) as Hrun
    by reflexivity.
  assert (next_call (compile_js true) six_calls_state
            (count_done (compile_js true) (settle 1 six_calls_state)))
    as Hcall.
  { apply NextInOnFulfilled; [reflexivity|]. right. left. }
  split; [exact Hm|]. split; [exact Hrun|]. split; [exact Hcall|].
  exact (proj2 (proj2 (next_starts_at_most_one_job _ _ _ _ Hm Hrun Hcall))).
Defined.

(** ** Progress of the queue *)

Lemma completions_cons e tr :
  completions (e :: tr)
  = (if is_completion e then 1 else 0) + completions tr.
Proof.
  unfold completions. rewrite filter_cons.
  destruct (is_completion e); by case_decide.
Qed.











(** * The scenarios of the specification *)

(** A bound of two and four jobs: the first two start at once, the third
    only when one of them has completed, all four complete, and the
    counter never stores more than two. *)
Example scenario_two_slots :
  ∃ s3 s,
    run (Config 2 false) [Submit; Submit; Submit; Submit] init = Some s3
    ∧ started s3 = [0; 1] ∧ queue s3 = [2; 3]
    ∧ run (Config 2 false)
        [CompileOk 0; CompileOk 1; CompileOk 3; CompileOk 2] s3 = Some s
    ∧ started s = [0; 1; 2; 3]
    ∧ promises s = [Fulfilled; Fulfilled; Fulfilled; Fulfilled]
    ∧ inProgress s = 0%Z
    ∧ Forall (obs_bounded 2) (out s).
Proof.
  eexists _, _. split; [vm_compute; reflexivity|]. split; [reflexivity|].
  split; [reflexivity|]. split; [vm_compute; reflexivity|].
  split_and!; [reflexivity..|].
  repeat constructor; simpl; lia.
Qed.

(** A bound of one and two jobs, the first of which fails: the process
    exits with status 1 and the second job is never started, whatever
    the environment schedules afterwards. *)
Example scenario_one_slot_failure message tr' s :
  run one_at_a_time
      ([Submit; Submit; CompileThrow 0 message] ++ tr') init = Some s →
  tr' = [] ∧ started s = [0] ∧ queue s = [1] ∧ exited s = Some 1%Z.
Proof.
  rewrite run_app.
  assert (run one_at_a_time [Submit; Submit; CompileThrow 0 message] init
          = Some (on_rejected 0 message (settle 0 two_calls_state))) as ->
    by (vm_compute; reflexivity).
  intros Hrun. cbn [mbind option_bind] in Hrun.
  destruct tr' as [|e tr']; cbn [run] in Hrun.
  - by injection Hrun as <-.
  - assert (step one_at_a_time e
              (on_rejected 0 message (settle 0 two_calls_state)) = None) as Hd
      by reflexivity.
    by rewrite Hd in Hrun.
Qed.

(** * Further properties of the limiter *)

(** ** What [next] and one turn add *)

Lemma next_grows cfg s :
  ∃ l, length l ≤ 1
       ∧ queue s = l ++ queue (next cfg s)
       ∧ running (next cfg s) = running s ++ l
       ∧ started (next cfg s) = started s ++ l
       ∧ inProgress (next cfg s) = (inProgress s + Z.of_nat (length l))%Z
       ∧ promises (next cfg s) = promises s
       ∧ exited (next cfg s) = exited s
       ∧ ∀ o, (∀ k, o ≠ ObsCompile k) → (∀ n, o ≠ ObsInc n) →
              (∀ k n, o ≠ ObsShift k n) →
              count_obs o (out (next cfg s)) = count_obs o (out s).
Proof.
  destruct (next_cases cfg s) as [[-> _]|(j & q & Hq & _ & ->)].
  - exists []. rewrite !app_nil_r. split_and!; try done; simpl; lia.
  - exists [j]. unfold started; simpl. rewrite starts_app. simpl.
    split_and!; try done; try lia.
    intros o Hc Hi Hs. unfold count_obs. rewrite filter_app, length_app.
    rewrite !filter_cons, filter_nil.
    rewrite !decide_False; [simpl; lia|..]; intros <-; naive_solver.
Qed.

Lemma count_obs_app o l l' :
  count_obs o (l ++ l') = count_obs o l + count_obs o l'.
Proof. unfold count_obs. by rewrite filter_app, length_app. Qed.

Lemma submit_shape cfg s :
  ∃ l, length l ≤ 1
       ∧ queue s ++ [length (promises s)] = l ++ queue (closureCompile cfg s).2
       ∧ running (closureCompile cfg s).2 = running s ++ l
       ∧ started (closureCompile cfg s).2 = started s ++ l
       ∧ inProgress (closureCompile cfg s).2
         = (inProgress s + Z.of_nat (length l))%Z
       ∧ promises (closureCompile cfg s).2 = promises s ++ [Pending]
       ∧ exited (closureCompile cfg s).2 = exited s
       ∧ ∀ o, (∀ k, o ≠ ObsCompile k) → (∀ n, o ≠ ObsInc n) →
              (∀ k n, o ≠ ObsShift k n) →
              count_obs o (out (closureCompile cfg s).2) = count_obs o (out s).
Proof.
  unfold closureCompile. cbn [snd].
  destruct (next_grows cfg (push_start s).2)
    as (l & Hl & Hq & Hr & Hst & Hn & Hp & He & Hc).
  exists l. by split_and!.
Qed.

Lemma success_shape cfg j s :
  ∃ l, length l ≤ 1
       ∧ queue s = l ++ queue (on_fulfilled cfg j (settle j s))
       ∧ running (on_fulfilled cfg j (settle j s))
         = filter (λ k, k ≠ j) (running s) ++ l
       ∧ started (on_fulfilled cfg j (settle j s)) = started s ++ l
       ∧ inProgress (on_fulfilled cfg j (settle j s))
         = (inProgress s - 1 + Z.of_nat (length l))%Z
       ∧ exited (on_fulfilled cfg j (settle j s)) = exited s
       ∧ ∀ o, (∀ k, o ≠ ObsCompile k) → (∀ n, o ≠ ObsInc n) →
              (∀ k n, o ≠ ObsShift k n) → (∀ n, o ≠ ObsDec n) →
              count_obs o (out (on_fulfilled cfg j (settle j s)))
              = count_obs o (out s)
                + (if travis cfg then count_obs o [ObsDot] else 0)
                + count_obs o [ObsResolve j].
Proof.
  unfold on_fulfilled.
  destruct (next_grows cfg (count_done cfg (settle j s)))
    as (l & Hl & Hq & Hr & Hst & Hn & Hp & He & Hc).
  destruct (count_done_fields cfg (settle j s)) as (Hq2 & Hn2 & Hp2 & He2 & Ho2).
  assert (running (count_done cfg (settle j s))
          = filter (λ k, k ≠ j) (running s)) as Hr2.
  { unfold count_done. by destruct (travis cfg). }
  assert (started (count_done cfg (settle j s)) = started s) as Hst2.
  { unfold started. rewrite Ho2. change (out (settle j s)) with (out s).
    rewrite !starts_app. destruct (travis cfg); simpl; by rewrite app_nil_r. }
  exists l. unfold resolve.
  cbn [queue running inProgress exited out emit set_promises].
  split_and!; try done.
  - by rewrite <- Hq.
  - by rewrite Hr, Hr2.
  - unfold started in *. cbn [out emit set_promises].
    rewrite starts_app, Hst, Hst2. simpl. by rewrite app_nil_r.
  - by rewrite Hn, Hn2.
  - by rewrite He, He2.
  - intros o H1 H2 H3 H4. rewrite count_obs_app, Hc by done.
    rewrite Ho2. change (out (settle j s)) with (out s).
    change (inProgress (settle j s)) with (inProgress s).
    rewrite !count_obs_app.
    assert (count_obs o [ObsDec (inProgress s - 1)] = 0) as ->.
    { unfold count_obs. rewrite filter_cons, decide_False; [done|].
      intros <-. by eapply H4. }
    destruct (travis cfg); simpl; lia.
Qed.

(** The job that a turn settles, if any. *)
Lemma step_shape cfg e s s' :
  step cfg e s = Some s' →
  ∃ l, length l ≤ 1
       ∧ started s' = started s ++ l
       ∧ running s'
         = match e with
           | Submit => running s
           | CompileOk k | CompileThrow k _ | StreamError k _ =>
               filter (λ x, x ≠ k) (running s)
           end ++ l
       ∧ exited s' = (if is_failure e then Some 1%Z else None)
       ∧ (Z.of_nat (length (promises s')) - inProgress s'
          - Z.of_nat (length (queue s'))
          = Z.of_nat (length (promises s)) - inProgress s
            - Z.of_nat (length (queue s))
            + (if is_completion e then 1 else 0))%Z.
Proof.
  intros Hstep. pose proof (step_alive _ _ _ _ Hstep) as Hex.
  unfold step in Hstep. rewrite Hex in Hstep.
  destruct e as [|j|j m|j m]; [|case_decide as Hj; [|done] ..].
  1: assert (s' = (closureCompile cfg s).2) as -> by congruence.
  2-4: injection Hstep as <-.
  - destruct (submit_shape cfg s) as (l & Hl & Hq & Hr & Hst & Hn & Hp & He & _).
    exists l. split_and!; try done; [by rewrite He|].
    apply (f_equal length) in Hq. rewrite !length_app in Hq.
    cbn [length] in Hq.
    rewrite Hp, Hn, length_app. cbn [is_completion length]. lia.
  - destruct (success_shape cfg j s) as (l & Hl & Hq & Hr & Hst & Hn & He & _).
    exists l. split_and!; try done; [by rewrite He|].
    apply (f_equal length) in Hq. rewrite !length_app in Hq.
    assert (length (promises (on_fulfilled cfg j (settle j s)))
            = length (promises s)) as ->.
    { unfold on_fulfilled, resolve. cbn [promises emit set_promises].
      rewrite next_promises.
      destruct (count_done_fields cfg (settle j s)) as (_ & _ & -> & _).
      change (promises (settle j s)) with (promises s).
      destruct (promises s !! j) as [[]|]; by rewrite ?length_insert. }
    rewrite Hn. cbn [is_completion]. lia.
  - exists []. unfold started; simpl. rewrite !starts_app. simpl.
    rewrite !app_nil_r. split_and!; try done; lia.
  - exists []. unfold started; simpl. rewrite !starts_app. simpl.
    rewrite !app_nil_r. split_and!; try done; lia.
Qed.

Lemma no_failure_live cfg tr : ∀ s s',
  exited s = None → no_failure tr → run cfg tr s = Some s' →
  exited s' = None.
Proof.
  induction tr as [|e tr IH]; intros s s' Hex Hok Hrun; simpl in Hrun.
  - by injection Hrun as <-.
  - destruct (step cfg e s) as [s1|] eqn:Hstep; [|done].
    apply Forall_cons in Hok as [Hoke Hok].
    destruct (step_shape _ _ _ _ Hstep) as (_ & _ & _ & _ & He & _).
    rewrite Hoke in He. by eapply IH.
Qed.

(** The counter and the queue account for every call that has not
    completed. *)
Lemma run_balance cfg tr : ∀ s s',
  run cfg tr s = Some s' →
  (Z.of_nat (length (promises s')) - inProgress s'
   - Z.of_nat (length (queue s'))
   = Z.of_nat (length (promises s)) - inProgress s
     - Z.of_nat (length (queue s)) + Z.of_nat (completions tr))%Z.
Proof.
  induction tr as [|e tr IH]; intros s s' Hrun; simpl in Hrun.
  - injection Hrun as <-. unfold completions; simpl. lia.
  - destruct (step cfg e s) as [s1|] eqn:Hstep; [|done].
    destruct (step_shape _ _ _ _ Hstep) as (_ & _ & _ & _ & _ & Hb).
    rewrite (IH _ _ Hrun), Hb, completions_cons.
    destruct (is_completion e); lia.
Qed.

Lemma completed_not_running cfg tr s j :
  run cfg tr init = Some s → CompileOk j ∈ tr → j ∉ running s.
Proof.
  revert s. induction tr as [|e tr IH] using rev_ind; intros s Hrun Hin.
  - by apply elem_of_nil in Hin.
  - apply run_snoc in Hrun as (s0 & Hrun & Hstep).
    pose proof (run_wf _ _ _ _ wf_init Hrun) as Hwf.
    pose proof (wf_step _ _ _ _ Hwf Hstep) as Hwf'.
    destruct (step_shape _ _ _ _ Hstep) as (l & _ & Hst & Hr & _).
    assert (j ∈ started s0 ∧ (j ∈ running s0 → e = CompileOk j))
      as [Hjs Hjr].
    { apply elem_of_app in Hin as [Hin|Hin].
      - split; [by eapply completed_started|].
        intros Hj. by apply (IH _ Hrun Hin) in Hj.
      - apply list_elem_of_singleton in Hin as <-. split; [|done].
        by eapply (wf_running _ Hwf), step_enabled_running. }
    assert (j ∉ l) as Hjl.
    { intros Hj.
      assert (NoDup (started s0 ++ l)) as Hnd.
      { rewrite <- Hst. rewrite (started_prefix _ Hwf'). apply NoDup_seq. }
      apply NoDup_app in Hnd as (_ & Hdis & _). by apply (Hdis j). }
    rewrite Hr. intros Hj. apply elem_of_app in Hj as [Hj|Hj]; [|done].
    destruct e as [|k|k m|k m].
    + by specialize (Hjr Hj).
    + apply list_elem_of_filter in Hj as [Hne Hj].
      specialize (Hjr Hj). by injection Hjr as ->.
    + apply list_elem_of_filter in Hj as [Hne Hj]. by specialize (Hjr Hj).
    + apply list_elem_of_filter in Hj as [Hne Hj]. by specialize (Hjr Hj).
Qed.

Lemma started_running_or_completed cfg tr s j :
  run cfg tr init = Some s → exited s = None → j ∈ started s →
  j ∈ running s ∨ CompileOk j ∈ tr.
Proof.
  revert s. induction tr as [|e tr IH] using rev_ind; intros s Hrun Hex Hj.
  - injection Hrun as <-. by apply elem_of_nil in Hj.
  - apply run_snoc in Hrun as (s0 & Hrun & Hstep).
    destruct (step_shape _ _ _ _ Hstep) as (l & _ & Hst & Hr & He & _).
    rewrite Hex in He.
    rewrite Hst in Hj. rewrite Hr.
    apply elem_of_app in Hj as [Hj|Hj].
    2: { left. apply elem_of_app. by right. }
    destruct (IH s0 Hrun (step_alive _ _ _ _ Hstep) Hj) as [Hjr|Hjc].
    2: { right. apply elem_of_app. by left. }
    destruct e as [|k|k m|k m]; try done.
    + left. apply elem_of_app. by left.
    + destruct (decide (j = k)) as [->|Hne].
      * right. apply elem_of_app. right. left.
      * left. apply elem_of_app. left. by apply list_elem_of_filter.
Qed.

Lemma step_count cfg e s s' o :
  step cfg e s = Some s' →
  (∀ k, o ≠ ObsCompile k) → (∀ n, o ≠ ObsInc n) →
  (∀ k n, o ≠ ObsShift k n) → (∀ n, o ≠ ObsDec n) →
  (∀ r, o ≠ ObsError r) → (∀ c, o ≠ ObsExit c) →
  count_obs o (out s')
  = count_obs o (out s)
    + match e with
      | CompileOk k => (if travis cfg then count_obs o [ObsDot] else 0)
                       + count_obs o [ObsResolve k]
      | _ => 0
      end.
Proof.
  intros Hstep H1 H2 H3 H4 H5 H6.
  pose proof (step_alive _ _ _ _ Hstep) as Hex.
  unfold step in Hstep. rewrite Hex in Hstep.
  destruct e as [|j|j m|j m]; [|case_decide as Hj; [|done] ..].
  1: assert (s' = (closureCompile cfg s).2) as -> by congruence.
  2-4: injection Hstep as <-.
  - destruct (submit_shape cfg s) as (l & _ & _ & _ & _ & _ & _ & _ & Hc).
    rewrite Hc by done. lia.
  - destruct (success_shape cfg j s) as (l & _ & _ & _ & _ & _ & _ & Hc).
    rewrite Hc by done. lia.
  - simpl. rewrite !count_obs_app. unfold count_obs at 2 3.
    rewrite !filter_cons, !filter_nil, !decide_False; [simpl; lia|..];
      intros <-; naive_solver.
  - simpl. rewrite !count_obs_app. unfold count_obs at 2 3.
    rewrite !filter_cons, !filter_nil, !decide_False; [simpl; lia|..];
      intros <-; naive_solver.
Qed.

Lemma filter_absent_nil {A} (P : A → Prop) `{∀ x, Decision (P x)} (l : list A) :
  (∀ x, x ∈ l → ¬ P x) → filter P l = [].
Proof.
  induction l as [|x l IH]; intros Hl; [done|].
  rewrite filter_cons, decide_False by (apply Hl; left).
  apply IH. intros y Hy. apply Hl. by right.
Qed.

Lemma may_no_completion tr :
  Forall (λ e, compile_may true e = true) tr → completions tr = 0.
Proof.
  intros Hall. unfold completions. rewrite filter_absent_nil; [done|].
  intros e He. rewrite Forall_forall in Hall. specialize (Hall e He).
  by destruct e.
Qed.

(** ** Properties *)

(** X1. While the process lives, every job that was submitted is in
    exactly one of three conditions: queued, with its promise pending;
    running, with its promise pending; or done, with its promise
    fulfilled.  The counter is the number of running jobs. *)
Theorem job_is_queued_running_or_done cfg tr s :
  run cfg tr init = Some s →
  exited s = None →
  inProgress s = Z.of_nat (length (running s))
  ∧ ∀ j, j < length (promises s) →
      (j ∈ queue s ∧ (j ∉ running s) ∧ promises s !! j = Some Pending)
      ∨ ((j ∉ queue s) ∧ j ∈ running s ∧ promises s !! j = Some Pending)
      ∨ ((j ∉ queue s) ∧ (j ∉ running s)
         ∧ promises s !! j = Some Fulfilled).
Proof.
  intros Hrun Hex. pose proof (run_wf _ _ _ _ wf_init Hrun) as Hwf.
  split; [by apply (wf_count _ Hwf)|]. intros j Hj.
  assert (NoDup (started s ++ queue s)) as Hnd.
  { rewrite (wf_order _ Hwf). apply NoDup_seq. }
  apply NoDup_app in Hnd as (_ & Hdis & _).
  pose proof (promise_fulfilled_iff cfg tr s j Hrun) as Hiff.
  assert (promises s !! j = Some Pending ∨ promises s !! j = Some Fulfilled)
    as Hp.
  { apply lookup_lt_is_Some in Hj as [p Hp]. rewrite Hp.
    destruct p; [by left|by right|]. by apply (wf_promises _ Hwf) in Hp. }
  assert (j ∈ started s ∨ j ∈ queue s) as [Hs|Hq].
  { apply elem_of_app. rewrite (wf_order _ Hwf). apply elem_of_seq. lia. }
  - destruct (started_running_or_completed _ _ _ _ Hrun Hex Hs) as [Hr|Hc].
    + right; left. split_and!; [by apply Hdis|done|].
      destruct Hp as [?|Hf]; [done|]. apply Hiff in Hf.
      by apply (completed_not_running _ _ _ _ Hrun) in Hf.
    + right; right. split_and!; [by apply Hdis| |by apply Hiff].
      by eapply completed_not_running.
  - assert (j ∉ started s) as Hns by (intros Hs; by apply (Hdis j)).
    left. split_and!; [done| |].
    + intros Hr. by apply Hns, (wf_running _ Hwf).
    + destruct Hp as [?|Hf]; [done|]. apply Hiff in Hf.
      by apply (completed_started _ _ _ _ Hrun) in Hf.
Qed.

Lemma job_is_queued_running_or_done_witness :
  run (compile_js true) demo_trace init = Some demo_state
  ∧ exited demo_state = None
  ∧ inProgress demo_state = Z.of_nat (length (running demo_state)).
Proof.
  assert (run (compile_js true) demo_trace init = Some demo_state) as Hrun
    by reflexivity.
  assert (exited demo_state = None) as Hex by reflexivity.
  split; [exact Hrun|]. split; [exact Hex|].
  exact (proj1 (job_is_queued_running_or_done _ _ _ Hrun Hex)).
Defined.

(** X2. In every run, failed or not, the calls of [closureCompile] are
    accounted for: their number is the counter plus the length of the
    queue plus the number of completions. *)
Theorem calls_are_accounted_for cfg tr s :
  run cfg tr init = Some s →
  Z.of_nat (length (promises s))
  = (inProgress s + Z.of_nat (length (queue s))
     + Z.of_nat (completions tr))%Z.
Proof.
  intros Hrun. pose proof (run_balance _ _ _ _ Hrun) as Hb.
  simpl in Hb. lia.
Qed.

Lemma calls_are_accounted_for_witness :
  run (compile_js true) demo_trace init = Some demo_state
  ∧ Z.of_nat (length (promises demo_state))
    = (inProgress demo_state + Z.of_nat (length (queue demo_state))
       + Z.of_nat (completions demo_trace))%Z.
Proof.
  assert (run (compile_js true) demo_trace init = Some demo_state) as Hrun
    by reflexivity.
  split; [exact Hrun|].
  exact (calls_are_accounted_for _ _ _ Hrun).
Defined.

(** X3. When, without a failure, as many jobs have completed as were
    submitted, the limiter is idle again: the queue is empty, the
    counter is zero, nothing is running and every returned promise is
    fulfilled. *)
Theorem all_done_leaves_limiter_idle cfg tr s :
  no_failure tr →
  run cfg tr init = Some s →
  completions tr = length (promises s) →
  queue s = [] ∧ inProgress s = 0%Z ∧ running s = []
  ∧ ∀ j, j < length (promises s) → promises s !! j = Some Fulfilled.
Proof.
  intros Hok Hrun Hall.
  pose proof (run_wf _ _ _ _ wf_init Hrun) as Hwf.
  assert (exited s = None) as Hex
    by (by apply (no_failure_live cfg tr init s)).
  pose proof (run_balance _ _ _ _ Hrun) as Hb. simpl in Hb.
  pose proof (wf_count _ Hwf Hex) as Hcnt.
  assert (queue s = []) as Hq by (destruct (queue s); [done|simpl in Hb; lia]).
  assert (running s = []) as Hr
    by (destruct (running s); [done|simpl in Hcnt; rewrite Hq in Hb; simpl in Hb; lia]).
  split_and!; [done| |done|].
  - rewrite Hcnt, Hr. done.
  - intros j Hj.
    assert (j ∈ started s) as Hs.
    { pose proof (wf_order _ Hwf) as Hord. rewrite Hq, app_nil_r in Hord.
      rewrite Hord. apply elem_of_seq. lia. }
    destruct (started_running_or_completed _ _ _ _ Hrun Hex Hs) as [Hjr|Hc].
    + rewrite Hr in Hjr. by apply elem_of_nil in Hjr.
    + by apply (promise_fulfilled_iff cfg tr s j Hrun).
Qed.

Lemma all_done_leaves_limiter_idle_witness :
  no_failure [Submit; Submit; CompileOk 1; CompileOk 0]
  ∧ run (compile_js true) [Submit; Submit; CompileOk 1; CompileOk 0] init
    = Some (State [] 0 [Fulfilled; Fulfilled] []
              [ObsShift 0 0; ObsInc 1; ObsCompile 0;
               ObsShift 1 1; ObsInc 2; ObsCompile 1;
               ObsDot; ObsDec 1; ObsResolve 1;
               ObsDot; ObsDec 0; ObsResolve 0] None)
  ∧ completions [Submit; Submit; CompileOk 1; CompileOk 0] = 2
  ∧ queue (State [] 0 [Fulfilled; Fulfilled] []
              [ObsShift 0 0; ObsInc 1; ObsCompile 0;
               ObsShift 1 1; ObsInc 2; ObsCompile 1;
               ObsDot; ObsDec 1; ObsResolve 1;
               ObsDot; ObsDec 0; ObsResolve 0] None) = [].
Proof.
  assert (no_failure [Submit; Submit; CompileOk 1; CompileOk 0]) as Hok
    by (by repeat constructor).
  assert (run (compile_js true) [Submit; Submit; CompileOk 1; CompileOk 0] init
    = Some (State [] 0 [Fulfilled; Fulfilled] []
              [ObsShift 0 0; ObsInc 1; ObsCompile 0;
               ObsShift 1 1; ObsInc 2; ObsCompile 1;
               ObsDot; ObsDec 1; ObsResolve 1;
               ObsDot; ObsDec 0; ObsResolve 0] None)) as Hrun by reflexivity.
  assert (completions [Submit; Submit; CompileOk 1; CompileOk 0] = 2) as Hc
    by reflexivity.
  split; [exact Hok|]. split; [exact Hrun|]. split; [exact Hc|].
  exact (proj1 (all_done_leaves_limiter_idle _ _ _ Hok Hrun Hc)).
Defined.

Lemma run_count_dots cfg tr : ∀ s s',
  run cfg tr s = Some s' →
  count_obs ObsDot (out s')
  = count_obs ObsDot (out s) + (if travis cfg then completions tr else 0).
Proof.
  induction tr as [|e tr IH]; intros s s' Hrun; simpl in Hrun.
  - injection Hrun as <-. unfold completions; simpl. destruct (travis cfg); lia.
  - destruct (step cfg e s) as [s1|] eqn:Hstep; [|done].
    rewrite (IH _ _ Hrun), completions_cons.
    rewrite (step_count _ _ _ _ ObsDot Hstep) by done.
    assert (count_obs ObsDot [ObsDot] = 1) as Hdd by reflexivity.
    assert (∀ k, count_obs ObsDot [ObsResolve k] = 0) as Hdr.
    { intros k. unfold count_obs. by rewrite filter_cons, decide_False. }
    destruct e as [|k|k m|k m]; cbn [is_completion];
      rewrite ?Hdd, ?Hdr; destruct (travis cfg); lia.
Qed.

(** X4. On Travis one progress dot is written for every job that
    completes, and nowhere else one is written at all. *)
Theorem one_dot_per_completed_job cfg tr s :
  run cfg tr init = Some s →
  count_obs ObsDot (out s) = if travis cfg then completions tr else 0.
Proof.
  intros Hrun. by rewrite (run_count_dots _ _ _ _ Hrun).
Qed.

Lemma one_dot_per_completed_job_witness :
  run (compile_js true) demo_trace init = Some demo_state
  ∧ count_obs ObsDot (out demo_state) = 1.
Proof.
  assert (run (compile_js true) demo_trace init = Some demo_state) as Hrun
    by reflexivity.
  split; [exact Hrun|].
  exact (one_dot_per_completed_job _ _ _ Hrun).
Defined.

(** X5. A job completes at most once, and [resolve] of its promise is
    called once for each completion: never twice, and never for a job
    whose [compile] has not fulfilled. *)
Theorem resolve_called_once_per_completion cfg tr s j :
  run cfg tr init = Some s →
  length (filter (λ e, e = CompileOk j) tr) ≤ 1
  ∧ count_obs (ObsResolve j) (out s)
    = length (filter (λ e, e = CompileOk j) tr).
Proof.
  revert s. induction tr as [|e tr IH] using rev_ind; intros s Hrun.
  - injection Hrun as <-. split; [simpl; lia|done].
  - apply run_snoc in Hrun as (s0 & Hrun & Hstep).
    destruct (IH _ Hrun) as [Hle Hcnt].
    rewrite (step_count _ _ _ _ (ObsResolve j) Hstep) by done.
    rewrite filter_app, length_app, Hcnt.
    assert (count_obs (ObsResolve j) [ObsDot] = 0) as Hrd.
    { unfold count_obs. by rewrite filter_cons, decide_False. }
    assert (∀ k, count_obs (ObsResolve j) [ObsResolve k]
                 = if decide (k = j) then 1 else 0) as Hrk.
    { intros k. unfold count_obs. rewrite filter_cons.
      destruct (decide (k = j)) as [->|Hkj].
      - by rewrite decide_True.
      - rewrite decide_False; [done|]. by intros [= ?]. }
    destruct (decide (e = CompileOk j)) as [->|Hne].
    + assert (CompileOk j ∉ tr) as Hnot.
      { intros Hin. eapply completed_not_running; [done..|].
        by eapply step_enabled_running. }
      rewrite (filter_absent_nil _ tr) by (by intros x Hx ->).
      rewrite filter_cons, decide_True by done.
      rewrite Hrd, Hrk, decide_True by done.
      destruct (travis cfg); simpl; lia.
    + rewrite filter_cons, decide_False by done. simpl.
      split; [lia|]. destruct e as [|k|k m|k m]; try lia.
      rewrite Hrd, Hrk, decide_False by congruence.
      destruct (travis cfg); lia.
Qed.

Lemma resolve_called_once_per_completion_witness :
  run (compile_js true) demo_trace init = Some demo_state
  ∧ count_obs (ObsResolve 1) (out demo_state) = 1.
Proof.
  assert (run (compile_js true) demo_trace init = Some demo_state) as Hrun
    by reflexivity.
  split; [exact Hrun|].
  exact (proj2 (resolve_called_once_per_completion _ _ _ 1 Hrun)).
Defined.

(** X6. With [argv.typecheck_only] no promise of [compile] is ever
    fulfilled, so the limiter never advances: the promises returned by
    [closureCompile] all stay pending, the jobs that start are the
    first ones up to the bound, and every later job stays queued. *)
Theorem typecheck_only_never_advances cfg tr s :
  (0 ≤ max_parallel cfg)%Z →
  Forall (λ e, compile_may true e = true) tr →
  run cfg tr init = Some s →
  (∀ j, promises s !! j ≠ Some Fulfilled)
  ∧ started s
    = seq 0 (length (promises s) `min` Z.to_nat (max_parallel cfg))
  ∧ queue s
    = seq (Z.to_nat (max_parallel cfg))
          (length (promises s) - Z.to_nat (max_parallel cfg)).
Proof.
  intros Hm Hmay Hrun.
  destruct (reachable_inv cfg s Hm) as [Hwf [Hrange Hbusy _]]; [by exists tr|].
  pose proof (run_balance _ _ _ _ Hrun) as Hb. simpl in Hb.
  rewrite (may_no_completion _ Hmay) in Hb.
  pose proof (wf_order _ Hwf) as Hord.
  pose proof (started_prefix _ Hwf) as Hpre.
  assert (length (started s) + length (queue s) = length (promises s)) as Hlen.
  { apply (f_equal length) in Hord. by rewrite length_app, length_seq in Hord. }
  assert (queue s = seq (length (started s)) (length (queue s))) as Hq.
  { rewrite <- Hlen, seq_app in Hord. rewrite Hpre in Hord at 1.
    by apply app_inv_head in Hord. }
  assert (inProgress s = Z.of_nat (length (started s))) as Hcount by lia.
  assert (length (queue s) = 0 ∨ inProgress s = max_parallel cfg) as Hfull.
  { destruct (queue s); [by left|right; by apply Hbusy]. }
  split_and!.
  - intros j Hf. apply (promise_fulfilled_iff cfg tr s j Hrun) in Hf.
    rewrite Forall_forall in Hmay. by specialize (Hmay _ Hf).
  - rewrite Hpre at 1. f_equal. lia.
  - rewrite Hq at 1. destruct Hfull as [Hz|Hf].
    + rewrite Hz. replace (length (promises s) - Z.to_nat (max_parallel cfg))
        with 0 by lia. done.
    + f_equal; lia.
Qed.

Lemma typecheck_only_never_advances_witness :
  (0 ≤ max_parallel (compile_js true))%Z
  ∧ Forall (λ e, compile_may true e = true) six_calls
  ∧ run (compile_js true) six_calls init = Some six_calls_state
  ∧ queue six_calls_state = [4; 5].
Proof.
  assert (0 ≤ max_parallel (compile_js true))%Z as Hm by (by vm_compute).
  assert (Forall (λ e, compile_may true e = true) six_calls) as Hmay
    by (by repeat constructor).
  assert (run (compile_js true) six_calls init = Some six_calls_state) as Hrun
    by reflexivity.
  split; [exact Hm|]. split; [exact Hmay|]. split; [exact Hrun|].
  exact (proj2 (proj2 (typecheck_only_never_advances _ _ _ Hm Hmay Hrun))).
Defined.

(** * The options of the compiler *)

(** ** Strings *)

Lemma prefix_empty s : String.prefix EmptyString s = true.
Proof. by destruct s. Qed.

Lemma has_slash_cons c r :
  includes "/" (String c r) = Ascii.eqb c "/" || includes "/" r.
Proof.
  cbn [includes String.prefix].
  destruct (ascii_dec "/" c) as [<-|Hne].
  - by rewrite prefix_empty.
  - assert (Ascii.eqb c "/" = false) as ->; [|done].
    apply Ascii.eqb_neq. congruence.
Qed.

Lemma has_slash_app a b :
  includes "/" (a +:+ b) = includes "/" a || includes "/" b.
Proof.
  induction a as [|c a IH].
  - simpl. by destruct b.
  - change (String c a +:+ b) with (String c (a +:+ b)).
    rewrite !has_slash_cons, IH. by rewrite orb_assoc.
Qed.

Lemma replace_slashes_no_slash s : includes "/" (replace_slashes s) = false.
Proof.
  induction s as [|c s IH]; [done|].
  cbn [replace_slashes]. rewrite has_slash_cons, IH.
  destruct (Ascii.eqb c "/") eqn:Hc; [done|]. by rewrite Hc.
Qed.

Lemma replace_slashes_fixed s :
  includes "/" s = false → replace_slashes s = s.
Proof.
  induction s as [|c s IH]; [done|].
  rewrite has_slash_cons. intros [Hc Hs]%orb_false_elim.
  cbn [replace_slashes]. by rewrite Hc, IH.
Qed.

Lemma strip_leading_dot_no_slash s :
  includes "/" s = false → includes "/" (strip_leading_dot s) = false.
Proof.
  destruct s as [|c s]; [done|]. unfold strip_leading_dot.
  destruct (Ascii.eqb c "."); [|done].
  rewrite has_slash_cons. by intros [_ ?]%orb_false_elim.
Qed.

Lemma prefix_app p : ∀ a b,
  String.prefix p a = true → String.prefix p (a +:+ b) = true.
Proof.
  induction p as [|c p IH]; intros a b Hp; [apply prefix_empty|].
  destruct a as [|d a]; [done|].
  change (String d a +:+ b) with (String d (a +:+ b)).
  cbn [String.prefix] in *. destruct (ascii_dec c d); [by apply IH|done].
Qed.

Lemma prefix_self_app p b : String.prefix p (p +:+ b) = true.
Proof.
  induction p as [|c p IH]; [apply prefix_empty|].
  change (String c p +:+ b) with (String c (p +:+ b)).
  cbn [String.prefix]. by destruct (ascii_dec c c).
Qed.

Lemma includes_prefix p s : String.prefix p s = true → includes p s = true.
Proof. intros Hp. destruct s; cbn [includes]; by rewrite Hp. Qed.

Lemma includes_cons p c s : includes p s = true → includes p (String c s) = true.
Proof. intros Hp. cbn [includes]. rewrite Hp. apply orb_true_r. Qed.

Lemma includes_app_l p a b :
  includes p a = true → includes p (a +:+ b) = true.
Proof.
  induction a as [|c a IH]; intros Hp.
  - cbn [includes] in Hp. rewrite orb_false_r in Hp.
    apply includes_prefix. by apply (prefix_app p EmptyString b).
  - cbn [includes] in Hp. apply orb_true_iff in Hp as [Hp|Hp].
    + apply includes_prefix. by apply prefix_app.
    + change (String c a +:+ b) with (String c (a +:+ b)).
      by apply includes_cons, IH.
Qed.

Lemma includes_replace_first pat rep s :
  includes pat s = true → includes rep (replace_first pat rep s) = true.
Proof.
  induction s as [|c s IH]; intros Hp.
  - cbn [includes] in Hp. rewrite orb_false_r in Hp.
    cbn [replace_first]. rewrite Hp.
    apply includes_prefix, prefix_self_app.
  - cbn [replace_first].
    destruct (String.prefix pat (String c s)) eqn:Hpre.
    + apply includes_prefix, prefix_self_app.
    + cbn [includes] in Hp. rewrite Hpre in Hp. simpl in Hp.
      by apply includes_cons, IH.
Qed.

Lemma replace_first_absent pat rep s :
  includes pat s = false → replace_first pat rep s = s.
Proof.
  induction s as [|c s IH]; intros Hp.
  - cbn [includes] in Hp. apply orb_false_elim in Hp as [Hp _].
    cbn [replace_first]. by rewrite Hp.
  - cbn [includes] in Hp. apply orb_false_elim in Hp as [Hpre Hp].
    cbn [replace_first]. by rewrite Hpre, IH.
Qed.

Lemma js_segment_no_slash t : js_segment t = true → includes "/" t = false.
Proof.
  induction t as [|c t IH]; [done|].
  cbn [js_segment]. intros [Hc Ht]%andb_true_iff.
  rewrite has_slash_cons. apply negb_true_iff in Hc. rewrite Hc. simpl.
  apply orb_true_iff in Ht as [Ht|Ht]; [|by apply IH].
  by apply String.eqb_eq in Ht as ->.
Qed.

Lemma js_segment_suffix t : js_segment t = true → ∃ u, t = u +:+ ".js".
Proof.
  induction t as [|c t IH]; [done|].
  cbn [js_segment]. intros [_ Ht]%andb_true_iff.
  apply orb_true_iff in Ht as [Ht|Ht].
  - apply String.eqb_eq in Ht as ->. by exists (String c EmptyString).
  - destruct (IH Ht) as [u ->]. by exists (String c u).
Qed.

Lemma js_segment_name name :
  name ≠ EmptyString → includes "/" name = false →
  js_segment (name +:+ ".js") = true.
Proof.
  induction name as [|c name IH]; [done|]. intros _.
  rewrite has_slash_cons. intros [Hc Hn]%orb_false_elim.
  change (String c name +:+ ".js") with (String c (name +:+ ".js")).
  cbn [js_segment]. rewrite Hc. simpl.
  destruct name as [|d name]; [done|].
  rewrite IH by done. apply orb_true_r.
Qed.

Lemma sibling_glob_js dir name :
  name ≠ EmptyString → includes "/" name = false →
  sibling_glob (dir +:+ "/" +:+ name +:+ ".js") = dir +:+ "/**/*.js".
Proof.
  intros Hne Hns. induction dir as [|c dir IH].
  - change (EmptyString +:+ "/" +:+ name +:+ ".js")
      with (String "/" (name +:+ ".js")).
    cbn [sibling_glob]. by rewrite js_segment_name.
  - change (String c dir +:+ "/" +:+ name +:+ ".js")
      with (String c (dir +:+ "/" +:+ name +:+ ".js")).
    cbn [sibling_glob]. rewrite IH.
    destruct (js_segment (dir +:+ "/" +:+ name +:+ ".js")) eqn:Hseg.
    + apply js_segment_no_slash in Hseg.
      rewrite has_slash_app in Hseg. apply orb_false_elim in Hseg as [_ Hseg].
      change ("/" +:+ name +:+ ".js") with (String "/" (name +:+ ".js"))
        in Hseg.
      by rewrite has_slash_cons in Hseg.
    + by rewrite andb_false_r.
Qed.

Lemma sibling_glob_other filename :
  (∀ p, filename ≠ p +:+ ".js") → sibling_glob filename = filename.
Proof.
  induction filename as [|c r IH]; intros Hno; [done|].
  cbn [sibling_glob].
  destruct (js_segment r) eqn:Hseg.
  - destruct (js_segment_suffix _ Hseg) as [u ->].
    by elim (Hno (String c u)).
  - rewrite andb_false_r, IH; [done|].
    intros p ->. by apply (Hno (String c p)).
Qed.

Lemma extension_globs_in filenames filename :
  filename ∈ filenames → includes "extensions/" filename = true →
  sibling_glob filename ∈ extension_globs filenames.
Proof.
  intros Hin Hext. unfold extension_globs.
  apply list_elem_of_In, in_flat_map. exists filename.
  split; [by apply list_elem_of_In|]. rewrite Hext. by left.
Qed.

Lemma srcs_extension o e g :
  g ∈ extension_globs (entryModuleFilenames e) → g ∈ srcs o e.
Proof.
  intros Hg. unfold srcs. rewrite !elem_of_app. right. by left.
Qed.

(** ** Properties *)

Lemma replace_slashes_length s :
  String.length (replace_slashes s) = String.length s.
Proof. induction s as [|c s IH]; [done|]. simpl. by rewrite IH. Qed.

Lemma replace_slashes_get s : ∀ i,
  String.get i (replace_slashes s)
  = (λ c, if Ascii.eqb c "/" then "_"%char else c) <$> String.get i s.
Proof.
  induction s as [|c s IH]; intros i; [done|].
  destruct i as [|i]; [done|]. simpl. apply IH.
Qed.

Lemma intermediate_file_not_the_directory f :
  includes "/" f = true → String.eqb (intermediateFilename f) "build/cc/" = false.
Proof.
  intros Hf. unfold intermediateFilename.
  assert (strip_leading_dot (replace_slashes f) ≠ EmptyString) as Hne.
  { destruct f as [|c f]; [done|]. unfold strip_leading_dot.
    cbn [replace_slashes].
    destruct (Ascii.eqb c "/") eqn:Hc; [done|].
    destruct (Ascii.eqb c "."); [|done].
    rewrite has_slash_cons, Hc in Hf. simpl in Hf.
    destruct f; [done|]. done. }
  destruct (strip_leading_dot (replace_slashes f)); done.
Qed.

Lemma prefix_dot c f : String.prefix "." (String c f) = Ascii.eqb c ".".
Proof.
  cbn [String.prefix]. destruct (ascii_dec "." c) as [<-|Hne].
  - by rewrite prefix_empty.
  - symmetry. apply Ascii.eqb_neq. congruence.
Qed.

Lemma strip_dot_replace c f :
  strip_leading_dot (replace_slashes (String c f))
  = if Ascii.eqb c "." then replace_slashes f
    else replace_slashes (String c f).
Proof.
  unfold strip_leading_dot. cbn [replace_slashes].
  destruct (Ascii.eqb c "/") eqn:Hc.
  - apply Ascii.eqb_eq in Hc as ->. done.
  - done.
Qed.

(** X7. Whenever [compile] gets as far as starting the compiler, the
    file that the compiler writes lies directly in [build/cc]: its name
    after [build/cc/] has no slash.  That name is the name of the entry
    module, character by character, with an underscore for every slash,
    and without the first character if that is a dot: it is one
    character shorter then, and as long as the entry name otherwise.
    The source map is created next to it, under the same name with
    [.map]. *)
Theorem intermediate_file_is_flat
    a o token version e outputFilename gs co f :
  entryModuleFilename e = Some f →
  compile_setup a o token version e outputFilename = inr (gs, co) →
  ∃ base, fileName co = "build/cc/" +:+ base
          ∧ includes "/" base = false
          ∧ String.length base
            = String.length f - (if String.prefix "." f then 1 else 0)
          ∧ (∀ i, String.get i base
                  = (λ c, if Ascii.eqb c "/" then "_"%char else c)
                    <$> String.get
                          (i + (if String.prefix "." f then 1 else 0)) f)
          ∧ create_source_map (flags co) = fileName co +:+ ".map".
Proof.
  intros Hf. unfold compile_setup. rewrite Hf.
  destruct (negb _ && _); [done|].
  destruct (includes "development" token); [done|].
  intros [= <- <-]. exists (strip_leading_dot (replace_slashes f)).
  split_and!; [done| | | |done].
  - apply strip_leading_dot_no_slash, replace_slashes_no_slash.
  - destruct f as [|c f]; [done|].
    rewrite prefix_dot, (strip_dot_replace c f).
    destruct (Ascii.eqb c "."); simpl; rewrite replace_slashes_length; lia.
  - intros i. destruct f as [|c f]; [by destruct i|].
    rewrite prefix_dot, (strip_dot_replace c f).
    destruct (Ascii.eqb c ".").
    + rewrite Nat.add_1_r. simpl. apply replace_slashes_get.
    + rewrite Nat.add_0_r. apply (replace_slashes_get (String c f) i).
Qed.

Lemma intermediate_file_is_flat_witness :
  entryModuleFilename (EntryString "./src/amp.js") = Some "./src/amp.js"
  ∧ compile_setup no_flags plain_options "01234" "5678"
      (EntryString "./src/amp.js") "v0.js"
    = inr (srcs plain_options (EntryString "./src/amp.js"),
           compilerOptions_of no_flags plain_options "5678"
             (EntryString "./src/amp.js") "./src/amp.js" "v0.js")
  ∧ ∃ base,
      fileName (compilerOptions_of no_flags plain_options "5678"
                  (EntryString "./src/amp.js") "./src/amp.js" "v0.js")
      = "build/cc/" +:+ base
      ∧ includes "/" base = false
      ∧ String.length base = 11
      ∧ (∀ i, String.get i base
              = (λ c, if Ascii.eqb c "/" then "_"%char else c)
                <$> String.get (i + 1) "./src/amp.js")
      ∧ create_source_map
          (flags (compilerOptions_of no_flags plain_options "5678"
                    (EntryString "./src/amp.js") "./src/amp.js" "v0.js"))
        = fileName (compilerOptions_of no_flags plain_options "5678"
                      (EntryString "./src/amp.js") "./src/amp.js" "v0.js")
          +:+ ".map".
Proof.
  assert (entryModuleFilename (EntryString "./src/amp.js")
          = Some "./src/amp.js") as Hf by reflexivity.
  assert (compile_setup no_flags plain_options "01234" "5678"
            (EntryString "./src/amp.js") "v0.js"
          = inr (srcs plain_options (EntryString "./src/amp.js"),
                 compilerOptions_of no_flags plain_options "5678"
                   (EntryString "./src/amp.js") "./src/amp.js" "v0.js"))
    as Hs by reflexivity.
  split; [exact Hf|]. split; [exact Hs|].
  exact (intermediate_file_is_flat _ _ _ _ _ _ _ _ _ Hf Hs).
Defined.

(** X8. The name of the intermediate file does not tell entry modules
    apart: an entry module with a slash in its name and the module
    named with underscores in place of the slashes are different
    modules, and [compile] gives both the same intermediate file and
    the same source map. *)
Theorem intermediate_file_collides a o token version outputFilename f :
  includes "/" f = true →
  includes "development" token = false →
  replace_slashes f ≠ f
  ∧ ∃ gs1 co1 gs2 co2,
      compile_setup a o token version (EntryString f) outputFilename
      = inr (gs1, co1)
      ∧ compile_setup a o token version
          (EntryString (replace_slashes f)) outputFilename
        = inr (gs2, co2)
      ∧ fileName co1 = fileName co2
      ∧ create_source_map (flags co1) = create_source_map (flags co2).
Proof.
  intros Hf Htok. split.
  - intros Heq. pose proof (replace_slashes_no_slash f) as Hno.
    rewrite Heq in Hno. congruence.
  - unfold compile_setup. cbn [entryModuleFilename]. rewrite Htok.
    rewrite (intermediate_file_not_the_directory f Hf), andb_false_r.
    assert (String.eqb (intermediateFilename (replace_slashes f)) "build/cc/"
            = false) as ->.
    { unfold intermediateFilename.
      rewrite (replace_slashes_fixed _ (replace_slashes_no_slash f)).
      apply (intermediate_file_not_the_directory f Hf). }
    rewrite andb_false_r.
    eexists _, _, _, _. split; [done|]. split; [done|].
    cbn [fileName flags create_source_map compilerOptions_of].
    unfold intermediateFilename.
    by rewrite (replace_slashes_fixed _ (replace_slashes_no_slash f)).
Qed.

Lemma intermediate_file_collides_witness :
  includes "/" "src/a/b.js" = true
  ∧ includes "development" "01234" = false
  ∧ replace_slashes "src/a/b.js" ≠ "src/a/b.js".
Proof.
  assert (includes "/" "src/a/b.js" = true) as Hf by reflexivity.
  assert (includes "development" "01234" = false) as Htok by reflexivity.
  split; [exact Hf|]. split; [exact Htok|].
  exact (proj1 (intermediate_file_collides no_flags plain_options
                  "01234" "5678" "v0.js" _ Hf Htok)).
Defined.

(** X9. The wrapper that the compiler is given has the place for the
    compiled code, [%output%], whenever the [wrapper] option is unset
    or empty, or contains the template [<%= contents %>]. *)
Theorem wrapper_has_output_placeholder o outputFilename :
  match truthy (opt_wrapper o) with
  | Some w => includes "<%= contents %>" w = true
  | None => True
  end →
  includes "%output%" (wrapper o outputFilename) = true.
Proof.
  intros Hw. unfold wrapper. apply includes_app_l.
  destruct (truthy (opt_wrapper o)) as [w|]; [|done].
  by apply includes_replace_first.
Qed.

Lemma wrapper_has_output_placeholder_witness :
  includes "<%= contents %>" "try{<%= contents %>}catch(e){}" = true
  ∧ includes "%output%"
      (wrapper (Options false false (Some "try{<%= contents %>}catch(e){}")
                  None false false None None) "v0.js") = true.
Proof.
  assert (includes "<%= contents %>" "try{<%= contents %>}catch(e){}" = true)
    as Hw by reflexivity.
  split; [exact Hw|].
  exact (wrapper_has_output_placeholder
           (Options false false (Some "try{<%= contents %>}catch(e){}")
              None false false None None) "v0.js" Hw).
Defined.

(** X10. A [wrapper] option that is not empty and does not contain the
    template [<%= contents %>] is passed on as it is, followed by the
    source map comment: nothing is replaced. *)
Theorem wrapper_without_template_is_verbatim o outputFilename w :
  opt_wrapper o = Some w →
  w ≠ EmptyString →
  includes "<%= contents %>" w = false →
  wrapper o outputFilename
  = w +:+ newline +:+ "//# sourceMappingURL=" +:+ outputFilename
      +:+ ".map" +:+ newline.
Proof.
  intros Ho Hne Hno. unfold wrapper. rewrite Ho.
  destruct w as [|c w]; [done|]. cbn [truthy].
  by rewrite replace_first_absent.
Qed.

Lemma wrapper_without_template_is_verbatim_witness :
  opt_wrapper (Options false false (Some "%output%") None false false
                 None None) = Some "%output%"
  ∧ "%output%" ≠ EmptyString
  ∧ includes "<%= contents %>" "%output%" = false
  ∧ wrapper (Options false false (Some "%output%") None false false
               None None) "v0.js"
    = "%output%" +:+ newline +:+ "//# sourceMappingURL=" +:+ "v0.js"
        +:+ ".map" +:+ newline.
Proof.
  assert ("%output%" ≠ EmptyString) as Hne by discriminate.
  assert (includes "<%= contents %>" "%output%" = false) as Hno
    by reflexivity.
  split; [reflexivity|]. split; [exact Hne|]. split; [exact Hno|].
  exact (wrapper_without_template_is_verbatim
           (Options false false (Some "%output%") None false false None None)
           "v0.js" "%output%" eq_refl Hne Hno).
Defined.

(** X11. For an entry module [dir/name.js] whose path contains
    [extensions/], the globs given to the compiler contain
    [dir/**/*.js]: all the JavaScript files beside and below the entry
    module. *)
Theorem extension_entry_adds_its_directory o e dir name :
  dir +:+ "/" +:+ name +:+ ".js" ∈ entryModuleFilenames e →
  includes "extensions/" (dir +:+ "/" +:+ name +:+ ".js") = true →
  name ≠ EmptyString →
  includes "/" name = false →
  dir +:+ "/**/*.js" ∈ srcs o e.
Proof.
  intros Hin Hext Hne Hns. apply srcs_extension.
  rewrite <- (sibling_glob_js dir name Hne Hns).
  by apply extension_globs_in.
Qed.

Lemma extension_entry_adds_its_directory_witness :
  "extensions/amp-foo/0.1" +:+ "/" +:+ "amp-foo" +:+ ".js"
    ∈ entryModuleFilenames (EntryString "extensions/amp-foo/0.1/amp-foo.js")
  ∧ includes "extensions/"
      ("extensions/amp-foo/0.1" +:+ "/" +:+ "amp-foo" +:+ ".js") = true
  ∧ "amp-foo" ≠ EmptyString
  ∧ includes "/" "amp-foo" = false
  ∧ "extensions/amp-foo/0.1" +:+ "/**/*.js"
      ∈ srcs plain_options (EntryString "extensions/amp-foo/0.1/amp-foo.js").
Proof.
  assert ("extensions/amp-foo/0.1" +:+ "/" +:+ "amp-foo" +:+ ".js"
            ∈ entryModuleFilenames
                (EntryString "extensions/amp-foo/0.1/amp-foo.js")) as Hin
    by left.
  assert (includes "extensions/"
            ("extensions/amp-foo/0.1" +:+ "/" +:+ "amp-foo" +:+ ".js") = true)
    as Hext by reflexivity.
  assert ("amp-foo" ≠ EmptyString) as Hne by discriminate.
  assert (includes "/" "amp-foo" = false) as Hns by reflexivity.
  split; [exact Hin|]. split; [exact Hext|]. split; [exact Hne|].
  split; [exact Hns|].
  exact (extension_entry_adds_its_directory plain_options _ _ _
           Hin Hext Hne Hns).
Defined.

(** X12. An entry module under [extensions/] whose name does not end in
    [.js] is not turned into a glob of its directory: the regular
    expression does not match, and the name itself is added to the
    globs. *)
Theorem extension_entry_without_js_is_added_itself o e filename :
  filename ∈ entryModuleFilenames e →
  includes "extensions/" filename = true →
  (∀ p, filename ≠ p +:+ ".js") →
  sibling_glob filename = filename ∧ filename ∈ srcs o e.
Proof.
  intros Hin Hext Hno.
  pose proof (sibling_glob_other filename Hno) as Hsame.
  split; [done|]. apply srcs_extension. rewrite <- Hsame at 1.
  by apply extension_globs_in.
Qed.

Lemma extension_entry_without_js_is_added_itself_witness :
  "extensions/a" ∈ entryModuleFilenames (EntryArray ["extensions/a"])
  ∧ includes "extensions/" "extensions/a" = true
  ∧ (∀ p, "extensions/a" ≠ p +:+ ".js")
  ∧ "extensions/a" ∈ srcs plain_options (EntryArray ["extensions/a"]).
Proof.
  assert ("extensions/a" ∈ entryModuleFilenames (EntryArray ["extensions/a"]))
    as Hin by left.
  assert (includes "extensions/" "extensions/a" = true) as Hext
    by reflexivity.
  assert (∀ p, "extensions/a" ≠ p +:+ ".js") as Hno.
  { intros p Hp.
    do 10 (destruct p as [|? p]; [discriminate Hp|];
           injection Hp as _ Hp).
    destruct p as [|? p]; [discriminate Hp|]. injection Hp as _ Hp.
    destruct p as [|? p]; [discriminate Hp|]. injection Hp as _ Hp.
    destruct p; discriminate Hp. }
  split; [exact Hin|]. split; [exact Hext|]. split; [exact Hno|].
  exact (proj2 (extension_entry_without_js_is_added_itself plain_options _ _
                  Hin Hext Hno)).
Defined.

(** X13. The compiler gets no [define] flag at all exactly when none of
    [--typecheck_only], [options.checkTypes], [--pseudo_names] and
    [--fortesting] is set; when it gets one, the list is not empty. *)
Theorem define_is_absent_iff_no_flag a o token version e outputFilename gs co :
  compile_setup a o token version e outputFilename = inr (gs, co) →
  (define (flags co) = None
   ↔ argv_typecheck_only a = false ∧ opt_checkTypes o = false
     ∧ argv_pseudo_names a = false ∧ argv_fortesting a = false)
  ∧ define (flags co) ≠ Some [].
Proof.
  unfold compile_setup. destruct (entryModuleFilename e) as [f|]; [|done].
  destruct (negb _ && _); [done|].
  destruct (includes "development" token); [done|].
  intros [= <- <-]. cbn [flags define compilerOptions_of].
  unfold defines, checkTypes.
  destruct (argv_typecheck_only a), (opt_checkTypes o),
    (argv_pseudo_names a), (argv_fortesting a); simpl; split;
    try done; split; try done; by intros (? & ? & ? & ?).
Qed.

Lemma define_is_absent_iff_no_flag_witness :
  compile_setup no_flags plain_options "01234" "5678"
    (EntryString "src/amp.js") "v0.js"
  = inr (srcs plain_options (EntryString "src/amp.js"),
         compilerOptions_of no_flags plain_options "5678"
           (EntryString "src/amp.js") "src/amp.js" "v0.js")
  ∧ define (flags (compilerOptions_of no_flags plain_options "5678"
                     (EntryString "src/amp.js") "src/amp.js" "v0.js"))
    ≠ Some [].
Proof.
  assert (compile_setup no_flags plain_options "01234" "5678"
            (EntryString "src/amp.js") "v0.js"
          = inr (srcs plain_options (EntryString "src/amp.js"),
                 compilerOptions_of no_flags plain_options "5678"
                   (EntryString "src/amp.js") "src/amp.js" "v0.js"))
    as Hs by reflexivity.
  split; [exact Hs|].
  exact (proj2 (define_is_absent_iff_no_flag _ _ _ _ _ _ _ _ Hs)).
Defined.

(** X14. Type checking is switched on as a whole: the define
    [TYPECHECK_ONLY=true], the five [jscomp_error] groups and the
    conformance configuration are given to the compiler together,
    exactly when [--typecheck_only] or [options.checkTypes] is set. *)
Theorem typecheck_flags_come_together
    a o token version e outputFilename gs co :
  compile_setup a o token version e outputFilename = inr (gs, co) →
  ((∃ d, define (flags co) = Some d ∧ "TYPECHECK_ONLY=true" ∈ d)
   ↔ argv_typecheck_only a || opt_checkTypes o = true)
  ∧ (length (jscomp_error (flags co))
     = if argv_typecheck_only a || opt_checkTypes o then 5 else 0)
  ∧ (is_Some (conformance_configs (flags co))
     ↔ argv_typecheck_only a || opt_checkTypes o = true).
Proof.
  unfold compile_setup. destruct (entryModuleFilename e) as [f|]; [|done].
  destruct (negb _ && _); [done|].
  destruct (includes "development" token); [done|].
  intros [= <- <-]. cbn [flags define jscomp_error conformance_configs
                          compilerOptions_of].
  unfold defines, checkTypes.
  assert (argv_typecheck_only a || (opt_checkTypes o || argv_typecheck_only a)
          = argv_typecheck_only a || opt_checkTypes o) as ->
    by (by destruct (argv_typecheck_only a), (opt_checkTypes o)).
  destruct (argv_typecheck_only a || opt_checkTypes o).
  - split_and!; [|done|].
    + split; [done|]. intros _. eexists. split; [done|]. left.
    + split; [done|]. by eexists.
  - split_and!; [|done|].
    + split; [|done]. intros (d & Hd & Hin). exfalso.
      destruct (argv_pseudo_names a), (argv_fortesting a); simpl in Hd;
        try done; injection Hd as <-;
        repeat (apply elem_of_cons in Hin as [Hin|Hin]; [done|]);
        by apply elem_of_nil in Hin.
    + split; [by intros [? ?]|done].
Qed.

Lemma typecheck_flags_come_together_witness :
  compile_setup (Argv false false true false)
    (Options true false None None false false None None) "01234" "5678"
    (EntryString "src/amp.js") "v0.js"
  = inr (srcs (Options true false None None false false None None)
           (EntryString "src/amp.js"),
         compilerOptions_of (Argv false false true false)
           (Options true false None None false false None None) "5678"
           (EntryString "src/amp.js") "src/amp.js" "v0.js")
  ∧ length (jscomp_error
              (flags (compilerOptions_of (Argv false false true false)
                        (Options true false None None false false None None)
                        "5678" (EntryString "src/amp.js") "src/amp.js"
                        "v0.js"))) = 5.
Proof.
  assert (compile_setup (Argv false false true false)
            (Options true false None None false false None None)
            "01234" "5678" (EntryString "src/amp.js") "v0.js"
          = inr (srcs (Options true false None None false false None None)
                   (EntryString "src/amp.js"),
                 compilerOptions_of (Argv false false true false)
                   (Options true false None None false false None None)
                   "5678" (EntryString "src/amp.js") "src/amp.js" "v0.js"))
    as Hs by reflexivity.
  split; [exact Hs|].
  exact (proj1 (proj2 (typecheck_flags_come_together _ _ _ _ _ _ _ _ Hs))).
Defined.

